(** * triad.collections.dict: IndexedOrderedDict and ParamDict

    A shallow embedding of [src/triad/collections/dict.py].  Python objects
    live in a store; a dictionary maps keys to references into that store, so
    that sharing between a dictionary and its copy is visible.  Methods that
    mutate [self] are state transformers that also return the outcome of the
    call (a value or the exception raised); an exception does not roll the
    state back. *)

From Stdlib Require Import Ascii String DecimalString DecimalPos DecimalZ.
From stdpp Require Import base gmap list strings.

Open Scope Z_scope.

(** ** Python values, the store, exceptions *)

Module Py.

(** Hashable immutable objects: the keys of a dictionary, and the leaves of
    values. *)
Inductive atom :=
| ANone
| AInt (z : Z)
| AStr (s : string).

#[export] Instance atom_eq_dec : EqDecision atom.
Proof. solve_decision. Defined.

Definition atom_encode (a : atom) : unit + (Z + string) :=
  match a with
  | ANone => inl tt
  | AInt z => inr (inl z)
  | AStr s => inr (inr s)
  end.

Definition atom_decode (x : unit + (Z + string)) : atom :=
  match x with
  | inl _ => ANone
  | inr (inl z) => AInt z
  | inr (inr s) => AStr s
  end.

#[export] Instance atom_countable : Countable atom.
Proof.
  refine (inj_countable' atom_encode atom_decode _).
  intros []; reflexivity.
Defined.

(** Object identity of a mutable object. *)
Abbreviation loc := nat.

(** A value is a reference: to an immutable atom (identified with the atom),
    or to a [list] object in the store.  The lists of the model hold atoms. *)
Inductive value :=
| VAtom (a : atom)
| VList (l : loc).

#[export] Instance value_eq_dec : EqDecision value.
Proof. solve_decision. Defined.

(** The store of [list] objects; objects are never freed. *)
Abbreviation heap := (list (list atom)).

Definition alloc (h : heap) (o : list atom) : heap * loc :=
  (h ++ [o], length h).

(** [copy.deepcopy]: atoms are returned as they are, a list is rebuilt as a
    new object. *)
Definition deepcopy (h : heap) (v : value) : heap * value :=
  match v with
  | VAtom a => (h, VAtom a)
  | VList l =>
      match h !! l with
      | Some o => let '(h', l') := alloc h o in (h', VList l')
      | None => (h, VList l)
      end
  end.

(** [x == y] as dictionary comparison uses it: identical objects are equal,
    lists are compared by content. *)
Definition eqb (h : heap) (x y : value) : bool :=
  match x, y with
  | VAtom a, VAtom b => bool_decide (a = b)
  | VList l1, VList l2 =>
      bool_decide (l1 = l2) ||
      match h !! l1, h !! l2 with
      | Some o1, Some o2 => bool_decide (o1 = o2)
      | _, _ => false
      end
  | _, _ => false
  end.

(** [isinstance(key, str)] *)
Definition is_str (k : atom) : bool :=
  match k with AStr _ => true | _ => false end.

(** [type(x)] *)
Inductive pytype := NoneType | int | str | list_.

#[export] Instance pytype_eq_dec : EqDecision pytype.
Proof. solve_decision. Defined.

Definition type (v : value) : pytype :=
  match v with
  | VAtom ANone => NoneType
  | VAtom (AInt _) => int
  | VAtom (AStr _) => str
  | VList _ => list_
  end.

(** The exceptions the module raises, one constructor per raise site kind. *)
Inductive exn :=
| AssertionError                       (* assert isinstance(key, str) *)
| KeyError (k : atom)                  (* lookup of a missing key *)
| KeyError_exists (k : atom)           (* KeyError(f"{k} exists in dict") *)
| ValueError_not_supported (on_dup : Z) (* ValueError(f"{on_dup} is not supported") *)
| IndexError                           (* list index out of range *)
| TypeError                            (* raised by as_type *)
| NoneArgumentError.                   (* raised by assert_arg_not_none *)

Inductive result (A : Type) :=
| Ok (a : A)
| Raise (e : exn).
Arguments Ok {A} a.
Arguments Raise {A} e.

(** [l[index]] on a Python list: a negative index counts from the end. *)
Definition list_getitem {A} (l : list A) (index : Z) : result A :=
  let n := Z.of_nat (length l) in
  let i := if index <? 0 then index + n else index in
  if (i <? 0) || (n <=? i) then Raise IndexError
  else match l !! Z.to_nat i with
       | Some x => Ok x
       | None => Raise IndexError
       end.

(** [enumerate(l)] *)
Definition enumerate {A} (l : list A) : list (Z * A) :=
  imap (fun i x => (Z.of_nat i, x)) l.

End Py.
Import Py.

(** The error taxonomy of the specification (section 7), and the kind each
    exception of the source falls under. *)
Module Spec.

Inductive error :=
| KeyNotFound
| IndexOutOfRange
| TypeError
| DuplicateKey
| InvalidArgument.

Definition classify (e : exn) : error :=
  match e with
  | Py.AssertionError => TypeError     (* non-string key on the string-keyed map *)
  | Py.KeyError _ => KeyNotFound
  | Py.KeyError_exists _ => DuplicateKey
  | Py.ValueError_not_supported _ => InvalidArgument
  | Py.IndexError => IndexOutOfRange
  | Py.TypeError => TypeError          (* coercion failure *)
  | Py.NoneArgumentError => InvalidArgument
  end.

Definition fails_with {A} (r : result A) (k : error) : Prop :=
  exists e, r = Raise e /\ classify e = k.

End Spec.

(** ** collections.OrderedDict, the base class

    The entries in insertion order; keys are unique. *)

Module OrderedDict.

Abbreviation t := (list (atom * value)).

Definition keys (od : t) : list atom := od.*1.

Fixpoint get (od : t) (key : atom) : option value :=
  match od with
  | [] => None
  | (k, v) :: rest => if decide (key = k) then Some v else get rest key
  end.

(** [key in od] *)
Definition contains (od : t) (key : atom) : bool :=
  match get od key with Some _ => true | None => false end.

(** [od[key] = value]: an existing key keeps its position, a new key goes
    to the end. *)
Fixpoint __setitem__ (od : t) (key : atom) (value : value) : t :=
  match od with
  | [] => [(key, value)]
  | (k, v) :: rest =>
      if decide (key = k) then (k, value) :: rest
      else (k, v) :: __setitem__ rest key value
  end.

Definition remove (od : t) (key : atom) : t :=
  filter (fun kv => kv.1 <> key) od.

(** [del od[key]] *)
Definition __delitem__ (od : t) (key : atom) : t * result unit :=
  if contains od key then (remove od key, Ok tt) else (od, Raise (KeyError key)).

(** [od.pop(key[, default])] *)
Definition pop (od : t) (key : atom) (default : option value) : t * result value :=
  match get od key, default with
  | Some v, _ => (remove od key, Ok v)
  | None, Some dflt => (od, Ok dflt)
  | None, None => (od, Raise (KeyError key))
  end.

(** [od.popitem(last)]; on an empty dictionary the KeyError carries a
    message, not a key. *)
Definition popitem (od : t) (last : bool) : t * result (atom * value) :=
  if last then
    match reverse od with
    | [] => (od, Raise (KeyError (AStr "dictionary is empty")))
    | kv :: rest => (reverse rest, Ok kv)
    end
  else
    match od with
    | [] => (od, Raise (KeyError (AStr "dictionary is empty")))
    | kv :: rest => (rest, Ok kv)
    end.

(** [od.move_to_end(key, last)] *)
Definition move_to_end (od : t) (key : atom) (last : bool) : t * result unit :=
  match get od key with
  | None => (od, Raise (KeyError key))
  | Some v =>
      if last then (remove od key ++ [(key, v)], Ok tt)
      else ((key, v) :: remove od key, Ok tt)
  end.

(** [dict.__eq__]: same size, and every key of the one is a key of the other
    with an equal value. *)
Definition dict_eq (h : heap) (a b : t) : bool :=
  bool_decide (length a = length b) &&
  forallb (fun kv => match get b kv.1 with
                     | Some v' => eqb h kv.2 v'
                     | None => false
                     end) a.

(** [OrderedDict.__eq__] against another OrderedDict:
    [dict.__eq__(self, other) and all(map(_eq, self, other))]. *)
Definition od_eq (h : heap) (a b : t) : bool :=
  dict_eq h a b && forallb (fun kk => bool_decide (kk.1 = kk.2)) (zip (keys a) (keys b)).

(** [OrderedDict(pairs)] and [dict(pairs)]: later pairs overwrite. *)
Definition of_pairs (pairs : list (atom * value)) : t :=
  foldl (fun od kv => __setitem__ od kv.1 kv.2) [] pairs.

End OrderedDict.

(** ** State and exception passing

    A method of an object with state [S] takes the state before the call and
    gives the state after it together with the outcome. *)

Module Exec.

Definition M (S A : Type) : Type := S -> S * result A.

Definition ret {S A} (a : A) : M S A := fun s => (s, Ok a).

Definition raise {S A} (e : exn) : M S A := fun s => (s, Raise e).

Definition bind {S A B} (m : M S A) (f : A -> M S B) : M S B :=
  fun s =>
    match m s with
    | (s', Ok a) => f a s'
    | (s', Raise e) => (s', Raise e)
    end.

(** Reading attributes of [self]. *)
Definition read {S A} (f : S -> result A) : M S A := fun s => (s, f s).

(** Assigning attributes of [self]. *)
Definition modify {S} (f : S -> S) : M S unit := fun s => (f s, Ok tt).

End Exec.
Import Exec.

Notation "'let*' x ':=' m 'in' k" := (bind m (fun x => k))
  (at level 10, x name, m at level 100, k at level 200).
Notation "m ';;' k" := (bind m (fun _ => k))
  (at level 100, k at level 200, right associativity).

(** ** json.dumps and json.loads

    The encoder and the decoder of Python's [json] module, on the values of
    the model: [None], integers, strings, and lists of these.  A string is a
    sequence of code points below 256. *)

Module Json.

Abbreviation text := (list ascii).

Definition quote : ascii := "034"%char.
Definition backslash : ascii := "092"%char.
Definition newline : ascii := "010"%char.

(** What an object maps a key to, as the encoder sees it. *)
Inductive jvalue :=
| JAtom (a : atom)
| JArray (items : list atom).

Definition jvalue_of (h : heap) (v : value) : jvalue :=
  match v with
  | VAtom a => JAtom a
  | VList l => JArray (default [] (h !! l))
  end.

(** *** Encoder *)

Definition hex_digit (n : N) : ascii :=
  nth (N.to_nat n) (list_ascii_of_string "0123456789abcdef") "0"%char.

(** [ESCAPE_ASCII] and [ESCAPE_DCT] of [json.encoder]: the printable ASCII
    characters other than the quote and the backslash stand for themselves,
    seven characters have a short escape, the others are written [\u00xx]. *)
Definition escape (c : ascii) : text :=
  match c with
  | "034"%char => [backslash; quote]
  | "092"%char => [backslash; backslash]
  | "008"%char => [backslash; "b"%char]
  | "012"%char => [backslash; "f"%char]
  | "010"%char => [backslash; "n"%char]
  | "013"%char => [backslash; "r"%char]
  | "009"%char => [backslash; "t"%char]
  | _ =>
      let n := N_of_ascii c in
      if ((32 <=? n) && (n <=? 126))%N then [c]
      else [backslash; "u"%char; "0"%char; "0"%char; hex_digit (n / 16); hex_digit (n mod 16)]
  end.

(** [encode_basestring_ascii] *)
Definition encode_string (s : string) : text :=
  quote :: flat_map escape (list_ascii_of_string s) ++ [quote].

(** [int.__repr__] *)
Definition encode_int (z : Z) : text :=
  list_ascii_of_string (NilZero.string_of_int (Z.to_int z)).

Definition null : text := list_ascii_of_string "null".

Definition encode_atom (a : atom) : text :=
  match a with
  | ANone => null
  | AInt z => encode_int z
  | AStr s => encode_string s
  end.

(** A key that is not a string is written as the string of its text. *)
Definition encode_key (k : atom) : text :=
  match k with
  | AStr s => encode_string s
  | _ => quote :: encode_atom k ++ [quote]
  end.

(** The parameters of [json.dumps] that [to_json_str] sets. *)
Record encoder := {
  indent : option nat;
  item_separator : text;
  key_separator : text
}.

(** A line break followed by the indentation of the level, when the encoder
    indents. *)
Definition newline_indent (e : encoder) (level : nat) : text :=
  match indent e with
  | None => []
  | Some n => newline :: repeat " "%char (n * level)
  end.

Definition join (separator : text) (chunks : list text) : text :=
  match chunks with
  | [] => []
  | first :: others => first ++ flat_map (fun chunk => separator ++ chunk) others
  end.

(** [_iterencode_list]; [level] is the level of the list itself. *)
Definition encode_list (e : encoder) (level : nat) (items : list atom) : text :=
  match items with
  | [] => list_ascii_of_string "[]"
  | _ =>
      "["%char :: newline_indent e (S level)
      ++ join (item_separator e ++ newline_indent e (S level)) (map encode_atom items)
      ++ newline_indent e level ++ ["]"%char]
  end.

Definition encode_value (e : encoder) (level : nat) (v : jvalue) : text :=
  match v with
  | JAtom a => encode_atom a
  | JArray items => encode_list e level items
  end.

(** [_iterencode_dict] *)
Definition encode_dict (e : encoder) (level : nat) (members : list (atom * jvalue)) : text :=
  match members with
  | [] => list_ascii_of_string "{}"
  | _ =>
      "{"%char :: newline_indent e (S level)
      ++ join (item_separator e ++ newline_indent e (S level))
              (map (fun kv => encode_key kv.1 ++ key_separator e ++ encode_value e (S level) kv.2)
                   members)
      ++ newline_indent e level ++ ["}"%char]
  end.

(** [json.dumps(d, ...)] for a dictionary [d] *)
Definition dumps (e : encoder) (h : heap) (d : list (atom * value)) : string :=
  string_of_list_ascii (encode_dict e 0 (map (fun kv => (kv.1, jvalue_of h kv.2)) d)).

(** *** Decoder *)






Definition is_int_char (c : ascii) : bool :=
  let n := N_of_ascii c in
  (n =? 45)%N || ((48 <=? n) && (n <=? 57))%N.









End Json.

(** ** triad.utils.iter.to_kv_iterable *)

Module Iter.

(** The shapes of input the adapter accepts. *)
Inductive source :=
| SNone                                   (* None *)
| SOrderedDict (od : OrderedDict.t)       (* an OrderedDict, or an instance of a subclass *)
| SDict (d : OrderedDict.t)               (* a plain dict, entries in insertion order *)
| SPairs (pairs : list (atom * value)).   (* a sequence of 2-element pairs *)

(** Modelled from the spec: [to_kv_iterable] is imported from
    [triad.utils.iter], which is not part of the sources at hand.  The
    specification (section 6) has it turn a source into the ordered sequence
    of its key/value pairs, keeping the order of an ordered source; an absent
    source (the default of [ParamDict.__init__]) has no pairs. *)
Definition to_kv_iterable (other : source) : list (atom * value) :=
  match other with
  | SNone => []
  | SOrderedDict od => od
  | SDict d => d
  | SPairs pairs => pairs
  end.




(** [isinstance(other, OrderedDict)] *)
Definition is_OrderedDict (other : source) : bool :=
  match other with SOrderedDict _ => true | _ => false end.

(** [isinstance(other, Dict)] *)
Definition is_Dict (other : source) : bool :=
  match other with SOrderedDict _ | SDict _ => true | _ => false end.

End Iter.
Import Iter.

(** ** class IndexedOrderedDict(OrderedDict) *)

Module IndexedOrderedDict.

Record t := mk {
  entries : OrderedDict.t;       (* the inherited OrderedDict content *)
  _need_reindex : bool;
  _key_index : gmap atom Z;
  _index_key : list atom
}.

Definition keys (self : t) : list atom := OrderedDict.keys (entries self).

(** [len(self)] *)
Definition len (self : t) : Z := Z.of_nat (length (entries self)).

(** [key in self] *)
Definition contains (self : t) (key : atom) : bool :=
  OrderedDict.contains (entries self) key.

(** [self[key]] *)
Definition __getitem__ (key : atom) : M t value :=
  read (fun self => match OrderedDict.get (entries self) key with
                    | Some v => Ok v
                    | None => Raise (KeyError key)
                    end).

Definition __setitem__ (key : atom) (value : value) : M t unit :=
  fun self =>
    let absent := negb (contains self key) in
    (mk (OrderedDict.__setitem__ (entries self) key value)
        absent (_key_index self) (_index_key self), Ok tt).

(** Runs a method of the base class on the inherited content. *)
Definition super {A} (f : OrderedDict.t -> OrderedDict.t * result A) : M t A :=
  fun self =>
    let '(od, r) := f (entries self) in
    (mk od (_need_reindex self) (_key_index self) (_index_key self), r).

Definition set_need_reindex (b : bool) : M t unit :=
  modify (fun self => mk (entries self) b (_key_index self) (_index_key self)).

Definition __delitem__ (key : atom) : M t unit :=
  set_need_reindex true ;;
  super (fun od => OrderedDict.__delitem__ od key).

Definition clear : M t unit :=
  set_need_reindex true ;;
  super (fun _ => ([], Ok tt)).

Definition popitem (last : bool) : M t (atom * value) :=
  set_need_reindex true ;;
  super (fun od => OrderedDict.popitem od last).

Definition move_to_end (key : atom) (last : bool) : M t unit :=
  set_need_reindex true ;;
  super (fun od => OrderedDict.move_to_end od key last).

Definition pop (key : atom) (default : option value) : M t value :=
  set_need_reindex true ;;
  super (fun od => OrderedDict.pop od key default).

(** [{x: i for i, x in enumerate(index_key)}] *)
Definition invert (index_key : list atom) : gmap atom Z :=
  foldl (fun m ix => <[ix.2 := ix.1]> m) ∅ (enumerate index_key).

Definition _build_index : M t unit :=
  fun self =>
    if _need_reindex self then
      let index_key := keys self in
      (mk (entries self) false (invert index_key) index_key, Ok tt)
    else (self, Ok tt).

(** [OrderedDict.__init__] stores the pairs one by one through
    [self[key] = value], then the three attributes are set. *)
Definition __init__ (args : list (atom * value)) : t :=
  let blank := mk [] true ∅ [] in
  let self := foldl (fun self kv => (__setitem__ kv.1 kv.2 self).1) blank args in
  mk (entries self) true ∅ [].

Definition index_of_key (key : atom) : M t Z :=
  _build_index ;;
  read (fun self => match _key_index self !! key with
                    | Some i => Ok i
                    | None => Raise (KeyError key)
                    end).

Definition get_key_by_index (index : Z) : M t atom :=
  _build_index ;;
  read (fun self => list_getitem (_index_key self) index).

Definition get_value_by_index (index : Z) : M t value :=
  let* key := get_key_by_index index in
  __getitem__ key.

Definition get_item_by_index (index : Z) : M t (atom * value) :=
  let* key := get_key_by_index index in
  let* v := __getitem__ key in
  ret (key, v).

Definition set_value_by_index (index : Z) (value : value) : M t unit :=
  let* key := get_key_by_index index in
  __setitem__ key value.

Definition pop_by_index (index : Z) : M t (atom * value) :=
  let* key := get_key_by_index index in
  let* v := pop key None in
  ret (key, v).

(** [OrderedDict.copy] makes a new instance of the class of [self] and
    stores the entries of [self] in it through [__setitem__]: the new object
    holds the very same value references.  [copy] then overwrites the three
    attributes.  The result is the pair of [self] after the call and the new
    object. *)
Definition copy (self : t) : t * t :=
  let other := __init__ (entries self) in
  (self, mk (entries other) (_need_reindex self) (_key_index self) (_index_key self)).

(** [self == other] for [self] an OrderedDict. *)
Definition __eq__ (h : heap) (self : t) (other : OrderedDict.t) (other_is_od : bool) : bool :=
  if other_is_od then OrderedDict.od_eq h (entries self) other
  else OrderedDict.dict_eq h (entries self) other.

Definition equals (h : heap) (self : t) (other : source) (with_order : bool) : bool :=
  if with_order then
    if is_OrderedDict other then __eq__ h self (to_kv_iterable other) true
    else __eq__ h self (OrderedDict.of_pairs (to_kv_iterable other)) true
  else
    if is_OrderedDict other || negb (is_Dict other)
    then __eq__ h self (OrderedDict.of_pairs (to_kv_iterable other)) false
    else __eq__ h self (to_kv_iterable other) false.

End IndexedOrderedDict.

(** ** triad.utils.assertion *)

Module Assertion.

(** Modelled from the spec: [assert_arg_not_none] is imported from
    [triad.utils.assertion], which is not part of the sources at hand.  The
    specification has [get] fail when [default] is the null sentinel, and the
    docstring of [ParamDict.get] names the exception: NoneArgumentError. *)
Definition assert_arg_not_none (obj : value) : result unit :=
  match obj with
  | VAtom ANone => Raise NoneArgumentError
  | _ => Ok tt
  end.

End Assertion.
Import Assertion.

(** ** class ParamDict(IndexedOrderedDict) *)

Module ParamDict.

Definition OVERWRITE : Z := 0.
Definition THROW : Z := 1.
Definition IGNORE : Z := 2.

(** A ParamDict has the attributes of its base class and no others.  The
    methods that copy values also allocate in the store. *)
Definition state : Type := heap * IndexedOrderedDict.t.

Definition lift {A} (m : M IndexedOrderedDict.t A) : M state A :=
  fun s =>
    let '(self', r) := m s.2 in
    ((s.1, self'), r).

(** [assert cond] *)
Definition assert_ {S} (cond : bool) : M S unit :=
  if cond then ret tt else raise AssertionError.

Definition __setitem__ (key : atom) (value : value) : M IndexedOrderedDict.t unit :=
  assert_ (is_str key) ;;
  IndexedOrderedDict.__setitem__ key value.

(** [copy.deepcopy(v)] *)
Definition copy_deepcopy (v : value) : M state value :=
  fun s =>
    let '(h', v') := deepcopy s.1 v in
    ((h', s.2), Ok v').

(** The loop of [update] over the pairs of [to_kv_iterable(other)]. *)
Fixpoint update_loop (pairs : list (atom * value)) (on_dup : Z) (deep : bool)
  : M state unit :=
  match pairs with
  | [] => ret tt
  | (k, v) :: rest =>
      let* present := read (fun s => Ok (IndexedOrderedDict.contains s.2 k)) in
      if (on_dup =? OVERWRITE) || negb present then
        let* v' := (if deep then copy_deepcopy v else ret v) in
        lift (__setitem__ k v') ;;
        update_loop rest on_dup deep
      else if on_dup =? THROW then raise (KeyError_exists k)
      else if on_dup =? IGNORE then update_loop rest on_dup deep
      else raise (ValueError_not_supported on_dup)
  end.

Definition update (other : source) (on_dup : Z) (deep : bool) : M state unit :=
  update_loop (to_kv_iterable other) on_dup deep.

(** [ParamDict(data, deep)]: when [update] raises, so does the constructor. *)
Definition __init__ (data : source) (deep : bool) (h : heap) : state * result unit :=
  update data OVERWRITE deep (h, IndexedOrderedDict.__init__ []).

(** [json.dumps(self, separators=(",", ":"))] and [json.dumps(self, indent=4)];
    with [indent] set and no separators given, [json.dumps] separates items
    by a comma and a key from its value by a colon and a space. *)
Definition compact_encoder : Json.encoder :=
  Json.Build_encoder None [","%char] [":"%char].

Definition indent_encoder : Json.encoder :=
  Json.Build_encoder (Some 4%nat) [","%char] [":"%char; " "%char].

Definition to_json_str (indent : bool) (s : state) : string :=
  if negb indent then Json.dumps compact_encoder s.1 (IndexedOrderedDict.entries s.2)
  else Json.dumps indent_encoder s.1 (IndexedOrderedDict.entries s.2).

Section Coercion.

(** [triad.utils.convert.as_type], the type-coercion collaborator: it gives
    the converted value or raises. *)
Variable as_type : heap -> value -> pytype -> result value.

Definition get (key : atom) (default : value) : M state value :=
  read (fun _ => assert_arg_not_none default) ;;
  let* present := read (fun s => Ok (IndexedOrderedDict.contains s.2 key)) in
  if present then
    let* v := lift (IndexedOrderedDict.__getitem__ key) in
    read (fun s => as_type s.1 v (type default))
  else ret default.

Definition _get_or (key : atom) (expected_type : pytype) (throw : bool) : M state value :=
  let* present := read (fun s => Ok (IndexedOrderedDict.contains s.2 key)) in
  if present then
    let* v := lift (IndexedOrderedDict.__getitem__ key) in
    read (fun s => as_type s.1 v expected_type)
  else if throw then raise (KeyError key)
  else ret (VAtom ANone).

Definition get_or_none (key : atom) (expected_type : pytype) : M state value :=
  _get_or key expected_type false.

Definition get_or_throw (key : atom) (expected_type : pytype) : M state value :=
  _get_or key expected_type true.

End Coercion.

End ParamDict.

(** * Properties *)

(** ** The base class *)

Module OrderedDictFacts.
Import OrderedDict.

Lemma contains_true od key : contains od key = true <-> is_Some (get od key).
Proof.
  unfold contains. destruct (get od key); split; intros H; eauto.
  - done.
  - by destruct H.
Qed.

Lemma contains_false od key : contains od key = false <-> get od key = None.
Proof. unfold contains. by destruct (get od key). Qed.

Lemma get_None od key : get od key = None <-> key ∉ keys od.
Proof.
  induction od as [|[k v] od IH]; simpl.
  - split; [intros _; apply not_elem_of_nil | done].
  - change (keys ((k, v) :: od)) with (k :: keys od). rewrite not_elem_of_cons.
    destruct (decide (key = k)); [|tauto].
    split; [done|]. intros [? _]. done.
Qed.

Lemma get_Some_elem od key v : get od key = Some v -> (key, v) ∈ od.
Proof.
  induction od as [|[k v'] od IH]; simpl; [done|].
  destruct (decide (key = k)) as [->|]; intros H.
  - injection H as ->. apply list_elem_of_here.
  - apply list_elem_of_further; auto.
Qed.

Lemma elem_get_Some od key v : NoDup (keys od) -> (key, v) ∈ od -> get od key = Some v.
Proof.
  induction od as [|[k v'] od IH]; simpl; intros Hnd Hin.
  - by apply elem_of_nil in Hin.
  - apply NoDup_cons in Hnd as [Hk Hnd]. apply elem_of_cons in Hin as [Heq|Hin].
    + injection Heq as -> ->. by rewrite decide_True.
    + destruct (decide (key = k)) as [->|]; [|auto].
      exfalso. apply Hk. apply list_elem_of_fmap. by exists (k, v).
Qed.

Lemma setitem_absent od key v : get od key = None -> __setitem__ od key v = od ++ [(key, v)].
Proof.
  induction od as [|[k v'] od IH]; simpl; [done|].
  destruct (decide (key = k)); [done|]. intros H. by rewrite IH.
Qed.

Lemma keys_setitem_present od key v : is_Some (get od key) -> keys (__setitem__ od key v) = keys od.
Proof.
  induction od as [|[k v'] od IH]; simpl; intros H.
  - by destruct H.
  - destruct (decide (key = k)); [done|].
    change (k :: keys (__setitem__ od key v) = k :: keys od). by rewrite IH.
Qed.

Lemma keys_setitem od key v :
  keys (__setitem__ od key v) = if contains od key then keys od else keys od ++ [key].
Proof.
  destruct (contains od key) eqn:E.
  - apply keys_setitem_present. by apply contains_true.
  - apply contains_false in E. rewrite setitem_absent by done.
    unfold keys. by rewrite fmap_app.
Qed.

Lemma get_setitem od key v k : get (__setitem__ od key v) k = if decide (k = key) then Some v else get od k.
Proof.
  induction od as [|[k' v'] od IH]; simpl.
  - destruct (decide (k = key)); done.
  - destruct (decide (key = k')) as [->|Hne]; simpl.
    + destruct (decide (k = k')); done.
    + rewrite IH. destruct (decide (k = k')) as [->|]; [|done].
      by rewrite decide_False.
Qed.

Lemma NoDup_setitem od key v : NoDup (keys od) -> NoDup (keys (__setitem__ od key v)).
Proof.
  intros Hnd. rewrite keys_setitem. destruct (contains od key) eqn:E; [done|].
  apply NoDup_app. split_and!; [done| |apply NoDup_singleton].
  intros x Hx Hx'. apply list_elem_of_singleton in Hx' as ->.
  apply contains_false, get_None in E. done.
Qed.

Lemma length_setitem od key v :
  length (__setitem__ od key v) = if contains od key then length od else S (length od).
Proof.
  pose proof (keys_setitem od key v) as H. apply (f_equal length) in H.
  unfold keys in H. rewrite length_fmap in H. rewrite H.
  destruct (contains od key); rewrite ?length_app, length_fmap; simpl; lia.
Qed.

(** Storing the entries of a dictionary one by one rebuilds it. *)
Lemma foldl_setitem_app acc od :
  NoDup (keys (acc ++ od)) ->
  foldl (fun od kv => __setitem__ od kv.1 kv.2) acc od = acc ++ od.
Proof.
  revert acc. induction od as [|[k v] od IH]; intros acc Hnd; simpl.
  - by rewrite app_nil_r.
  - rewrite setitem_absent.
    + rewrite IH; rewrite <- app_assoc; done.
    + apply get_None. unfold keys in Hnd. rewrite fmap_app in Hnd.
      apply NoDup_app in Hnd as (_ & Hd & _). intros Hin.
      apply (Hd k Hin). simpl. apply list_elem_of_here.
Qed.

Lemma of_pairs_entries od : NoDup (keys od) -> of_pairs od = od.
Proof. intros H. unfold of_pairs. by rewrite foldl_setitem_app. Qed.

Lemma NoDup_of_pairs pairs : NoDup (keys (of_pairs pairs)).
Proof.
  unfold of_pairs.
  assert (forall acc, NoDup (keys acc) ->
            NoDup (keys (foldl (fun od kv => __setitem__ od kv.1 kv.2) acc pairs))) as H.
  { induction pairs as [|[k v] pairs IH]; intros acc Hacc; [done|].
    simpl. apply IH. by apply NoDup_setitem. }
  apply H. apply NoDup_nil_2.
Qed.

Lemma keys_remove_sublist (od : OrderedDict.t) key : keys (remove od key) `sublist_of` keys od.
Proof. unfold keys, remove. apply fmap_sublist, sublist_filter. Qed.

Lemma NoDup_remove (od : OrderedDict.t) key : NoDup (keys od) -> NoDup (keys (remove od key)).
Proof. intros H. eapply sublist_NoDup; [exact H|apply keys_remove_sublist]. Qed.

Lemma not_elem_of_remove (od : OrderedDict.t) key : key ∉ keys (remove od key).
Proof.
  unfold keys, remove. intros Hin. apply list_elem_of_fmap in Hin as ([k v] & -> & Hin).
  apply list_elem_of_filter in Hin as [Hne _]. by apply Hne.
Qed.

Lemma NoDup_delitem (od : OrderedDict.t) key : NoDup (keys od) -> NoDup (keys (__delitem__ od key).1).
Proof. intros H. unfold __delitem__. destruct (contains od key); [by apply NoDup_remove|done]. Qed.

Lemma NoDup_pop (od : OrderedDict.t) key default :
  NoDup (keys od) -> NoDup (keys (pop od key default).1).
Proof.
  intros H. unfold pop. destruct (get od key); [by apply NoDup_remove|].
  by destruct default.
Qed.

Lemma NoDup_popitem (od : OrderedDict.t) last : NoDup (keys od) -> NoDup (keys (popitem od last).1).
Proof.
  intros H. unfold popitem. destruct last.
  - destruct (reverse od) as [|kv rest] eqn:E; [done|]. simpl.
    assert (od = reverse rest ++ [kv]) as Hod.
    { rewrite <- (reverse_involutive od), E. apply reverse_cons. }
    rewrite Hod in H. unfold keys in *. rewrite fmap_app in H.
    by apply NoDup_app in H as [H _].
  - destruct od as [|kv rest]; [done|]. simpl.
    change (NoDup (kv.1 :: keys rest)) in H. by apply NoDup_cons in H as [_ H].
Qed.

Lemma NoDup_move_to_end (od : OrderedDict.t) key last :
  NoDup (keys od) -> NoDup (keys (move_to_end od key last).1).
Proof.
  intros H. unfold move_to_end. destruct (get od key) as [v|]; [|done].
  pose proof (NoDup_remove od key H) as Hr. pose proof (not_elem_of_remove od key) as Hn.
  destruct last; simpl.
  - unfold keys in *. rewrite fmap_app. apply NoDup_app. split_and!; [done| |apply NoDup_singleton].
    intros x Hx Hx'. simpl in Hx'. apply list_elem_of_singleton in Hx' as ->. done.
  - change (NoDup (key :: keys (remove od key))). by apply NoDup_cons.
Qed.

End OrderedDictFacts.

(** ** The index cache of IndexedOrderedDict *)

Module IndexFacts.
Import IndexedOrderedDict.

(** The operations a caller can apply to a dictionary. *)
Inductive op :=
| Setitem (key : atom) (value : value)
| Delitem (key : atom)
| Pop (key : atom) (default : option value)
| Popitem (last : bool)
| Clear
| MoveToEnd (key : atom) (last : bool)
| SetValueByIndex (index : Z) (value : value)
| PopByIndex (index : Z)
| Copy
| IndexOfKey (key : atom)
| GetKeyByIndex (index : Z)
| GetValueByIndex (index : Z)
| GetItemByIndex (index : Z).

(** The object the caller holds after the operation, whether it returned or
    raised; after [Copy] it is the new object. *)
Definition step (o : op) (self : t) : t :=
  match o with
  | Setitem key value => (__setitem__ key value self).1
  | Delitem key => (__delitem__ key self).1
  | Pop key default => (pop key default self).1
  | Popitem last => (popitem last self).1
  | Clear => (clear self).1
  | MoveToEnd key last => (move_to_end key last self).1
  | SetValueByIndex index value => (set_value_by_index index value self).1
  | PopByIndex index => (pop_by_index index self).1
  | Copy => (copy self).2
  | IndexOfKey key => (index_of_key key self).1
  | GetKeyByIndex index => (get_key_by_index index self).1
  | GetValueByIndex index => (get_value_by_index index self).1
  | GetItemByIndex index => (get_item_by_index index self).1
  end.

Definition run (ops : list op) (self : t) : t :=
  foldl (fun self o => step o self) self ops.

Definition reachable (self : t) : Prop :=
  exists args ops, self = run ops (__init__ args).

(** The cached arrays are the current key order and its inverse. *)
Definition index_exact (self : t) : Prop :=
  _index_key self = keys self /\
  forall key i, _key_index self !! key = Some i <->
                0 <= i /\ keys self !! Z.to_nat i = Some key.

(** The invariant of the cache: a clear flag means exact arrays. *)
Definition cache_consistent (self : t) : Prop :=
  _need_reindex self = false -> index_exact self.

Definition well_formed (self : t) : Prop := NoDup (keys self).

Lemma invert_aux (l : list atom) : forall (m : gmap atom Z) (n : nat) (key : atom),
  NoDup l ->
  foldl (fun m ix => <[ix.2 := ix.1]> m) m
        (imap (fun i x => (Z.of_nat (n + i), x)) l) !! key =
  match list_find (fun x => x = key) l with
  | Some (j, _) => Some (Z.of_nat (n + j))
  | None => m !! key
  end.
Proof.
  induction l as [|x l IH]; intros m n key Hnd; [done|].
  apply NoDup_cons in Hnd as [Hx Hnd]. simpl.
  rewrite (imap_ext _ (fun i x => (Z.of_nat (S n + i), x))).
  2:{ intros i y _. simpl. do 2 f_equal. lia. }
  rewrite IH by done. destruct (decide (x = key)) as [->|Hne].
  - destruct (list_find _ l) as [[j y]|] eqn:E.
    + apply list_find_Some in E as (Hj & -> & _).
      exfalso. apply Hx. eapply list_elem_of_lookup_2. done.
    + simpl. rewrite lookup_insert_eq. f_equal; lia.
  - destruct (list_find _ l) as [[j y]|] eqn:E; simpl.
    + f_equal; lia.
    + by rewrite lookup_insert_ne.
Qed.

Lemma invert_lookup (l : list atom) key i :
  NoDup l ->
  invert l !! key = Some i <-> 0 <= i /\ l !! Z.to_nat i = Some key.
Proof.
  intros Hnd. unfold invert, enumerate.
  rewrite (invert_aux l ∅ 0 key Hnd). simpl.
  destruct (list_find _ l) as [[j y]|] eqn:E.
  - apply list_find_Some in E as (Hj & -> & _). split.
    + intros [= <-]. rewrite Nat2Z.id. split; [lia|done].
    + intros [Hi Hl]. f_equal.
      assert (j = Z.to_nat i) as -> by (eapply NoDup_lookup; eauto). lia.
  - rewrite lookup_empty. split; [done|]. intros [_ Hl].
    apply list_find_None in E. rewrite Forall_forall in E.
    exfalso. apply (E key); [|done]. eapply list_elem_of_lookup_2. done.
Qed.

Lemma build_index_exact self :
  well_formed self -> cache_consistent self -> index_exact (_build_index self).1.
Proof.
  intros Hwf Hc. unfold _build_index. destruct (_need_reindex self) eqn:E; simpl.
  - split; [done|]. intros key i. simpl. by apply invert_lookup.
  - by apply Hc.
Qed.

Lemma build_index_entries self : entries (_build_index self).1 = entries self.
Proof. unfold _build_index. by destruct (_need_reindex self). Qed.

Lemma build_index_flag self : _need_reindex (_build_index self).1 = false.
Proof. unfold _build_index. by destruct (_need_reindex self) eqn:E. Qed.

Lemma init_entries args : entries (__init__ args) = OrderedDict.of_pairs args.
Proof.
  unfold __init__, OrderedDict.of_pairs. simpl.
  change (@nil (atom * value)) with (entries (mk [] true ∅ [])) at 2.
  generalize (mk [] true ∅ []).
  induction args as [|[k v] args IH]; intros s; simpl; [done|].
  by rewrite IH.
Qed.

Lemma build_index_index_key self :
  cache_consistent self -> _index_key (_build_index self).1 = keys self.
Proof.
  intros Hc. unfold _build_index. destruct (_need_reindex self) eqn:E; [done|].
  by apply Hc.
Qed.

Lemma list_getitem_out_of_range {A} (l : list A) index :
  index < - Z.of_nat (length l) \/ Z.of_nat (length l) <= index ->
  list_getitem l index = Raise IndexError.
Proof.
  intros H. unfold list_getitem.
  destruct (Z.ltb_spec index 0) as [Hneg|Hpos].
  - destruct (Z.ltb_spec (index + Z.of_nat (length l)) 0); [done|lia].
  - destruct (Z.ltb_spec index 0); [lia|].
    destruct (Z.leb_spec (Z.of_nat (length l)) index); [done|lia].
Qed.

Lemma list_getitem_negative {A} (l : list A) index :
  - Z.of_nat (length l) <= index < 0 ->
  list_getitem l index = list_getitem l (index + Z.of_nat (length l)).
Proof.
  intros H. unfold list_getitem. cbv zeta.
  destruct (Z.ltb_spec index 0); [|lia].
  destruct (Z.ltb_spec (index + Z.of_nat (length l)) 0) as [|Hge]; [lia|].
  apply Z.ltb_ge in Hge. by rewrite Hge.
Qed.

Lemma keys_length self : Z.of_nat (length (keys self)) = len self.
Proof. unfold keys, OrderedDict.keys, len. by rewrite length_fmap. Qed.

Lemma contains_elem_of self key : contains self key = true <-> key ∈ keys self.
Proof.
  unfold contains, keys. destruct (OrderedDict.contains (entries self) key) eqn:E.
  - split; [intros _|done]. apply OrderedDictFacts.contains_true in E.
    destruct (decide (key ∈ OrderedDict.keys (entries self))) as [|Hn]; [done|].
    apply OrderedDictFacts.get_None in Hn. rewrite Hn in E. by destruct E.
  - split; [done|]. intros Hin. apply OrderedDictFacts.contains_false in E.
    by apply OrderedDictFacts.get_None in E.
Qed.

Lemma build_index_well_formed self : well_formed self -> well_formed (_build_index self).1.
Proof. unfold well_formed, keys. by rewrite build_index_entries. Qed.

Lemma build_index_consistent self :
  well_formed self -> cache_consistent self -> cache_consistent (_build_index self).1.
Proof. intros Hwf Hc _. by apply build_index_exact. Qed.

Lemma stale_consistent self : _need_reindex self = true -> cache_consistent self.
Proof. intros H H'. congruence. Qed.

Lemma get_key_by_index_state index self :
  (get_key_by_index index self).1 = (_build_index self).1.
Proof.
  unfold get_key_by_index, bind, read. destruct (_build_index self) as [s r] eqn:E.
  assert (r = Ok tt) as ->. { unfold _build_index in E. destruct (_need_reindex self); by inversion E. }
  done.
Qed.

Lemma build_index_result self : (_build_index self).2 = Ok tt.
Proof. unfold _build_index. by destruct (_need_reindex self). Qed.

Lemma mutator_state {A} (f : OrderedDict.t -> OrderedDict.t * result A) self :
  ((set_need_reindex true ;; super f) self).1
  = mk (f (entries self)).1 true (_key_index self) (_index_key self).
Proof.
  unfold bind, set_need_reindex, modify, super. simpl. by destruct (f (entries self)).
Qed.

Lemma copy_same self : well_formed self -> (copy self).2 = self.
Proof.
  intros Hwf. unfold copy. cbn [snd]. rewrite init_entries.
  rewrite OrderedDictFacts.of_pairs_entries by done. by destruct self.
Qed.

Lemma setitem_preserves_cache key value self :
  well_formed self -> cache_consistent self ->
  _need_reindex self = false \/ contains self key = false ->
  well_formed (__setitem__ key value self).1 /\
  cache_consistent (__setitem__ key value self).1.
Proof.
  intros Hwf Hc Hs. split.
  - unfold well_formed, keys. simpl. by apply OrderedDictFacts.NoDup_setitem.
  - intros Hflag. simpl in Hflag. apply negb_false_iff in Hflag.
    destruct Hs as [Hs|Hs]; [|congruence].
    destruct (Hc Hs) as [Hik Hki].
    assert (keys (__setitem__ key value self).1 = keys self) as Hkeys.
    { unfold keys. simpl. rewrite OrderedDictFacts.keys_setitem.
      unfold contains in Hflag. by rewrite Hflag. }
    split; [by rewrite Hkeys|]. intros k i. rewrite Hkeys. apply Hki.
Qed.

(** A store is sound when it does not hit a present key while the flag is
    set; every other operation is. *)
Definition sound (o : op) (self : t) : Prop :=
  match o with
  | Setitem key _ => _need_reindex self = false \/ contains self key = false
  | _ => True
  end.

Lemma step_preserves_cache (o : op) (self : t) :
  well_formed self -> cache_consistent self -> sound o self ->
  well_formed (step o self) /\ cache_consistent (step o self).
Proof.
  intros Hwf Hc Hs.
  pose proof (build_index_well_formed self Hwf) as Hwf1.
  pose proof (build_index_consistent self Hwf Hc) as Hc1.
  pose proof (build_index_flag self) as Hf1.
  pose proof (build_index_result self) as Hr1.
  destruct o; cbn [step].
  - by apply setitem_preserves_cache.
  - unfold __delitem__. rewrite mutator_state. split; [|by apply stale_consistent].
    unfold well_formed, keys. simpl. by apply OrderedDictFacts.NoDup_delitem.
  - unfold pop. rewrite mutator_state. split; [|by apply stale_consistent].
    unfold well_formed, keys. simpl. by apply OrderedDictFacts.NoDup_pop.
  - unfold popitem. rewrite mutator_state. split; [|by apply stale_consistent].
    unfold well_formed, keys. simpl. by apply OrderedDictFacts.NoDup_popitem.
  - unfold clear. rewrite mutator_state. split; [|by apply stale_consistent].
    apply NoDup_nil_2.
  - unfold move_to_end. rewrite mutator_state. split; [|by apply stale_consistent].
    unfold well_formed, keys. simpl. by apply OrderedDictFacts.NoDup_move_to_end.
  - unfold set_value_by_index, bind.
    pose proof (get_key_by_index_state index self) as Hst.
    destruct (get_key_by_index index self) as [s1 [key|e]]; simpl in Hst; subst s1; [|done].
    apply setitem_preserves_cache; auto.
  - unfold pop_by_index, bind.
    pose proof (get_key_by_index_state index self) as Hst.
    destruct (get_key_by_index index self) as [s1 [key|e]]; simpl in Hst; subst s1; [|done].
    pose proof (mutator_state (fun od => OrderedDict.pop od key None) (_build_index self).1) as Hm.
    fold (pop key None) in Hm.
    destruct (pop key None (_build_index self).1) as [s2 [v|e]]; simpl in *; subst s2.
    all: split; [|by apply stale_consistent].
    all: unfold well_formed, keys; simpl; by apply OrderedDictFacts.NoDup_pop.
  - by rewrite copy_same.
  - unfold index_of_key, bind, read.
    destruct (_build_index self) as [s1 r]; simpl in *; subst r. done.
  - by rewrite get_key_by_index_state.
  - unfold get_value_by_index, bind.
    pose proof (get_key_by_index_state index self) as Hst.
    destruct (get_key_by_index index self) as [s1 [key|e]]; simpl in Hst; subst s1; done.
  - unfold get_item_by_index, bind.
    pose proof (get_key_by_index_state index self) as Hst.
    destruct (get_key_by_index index self) as [s1 [key|e]]; simpl in Hst; subst s1; [|done].
    unfold __getitem__, read. simpl.
    by destruct (OrderedDict.get (entries (_build_index self).1) key).
Qed.

Lemma init_well_formed_consistent args :
  well_formed (__init__ args) /\ cache_consistent (__init__ args).
Proof.
  split; [|by apply stale_consistent].
  unfold well_formed, keys. rewrite init_entries. apply OrderedDictFacts.NoDup_of_pairs.
Qed.

(** The states reached from a new dictionary by sound operations. *)
Inductive sound_run : t -> Prop :=
| sound_init args : sound_run (__init__ args)
| sound_step o self : sound_run self -> sound o self -> sound_run (step o self).

(** Apart from the store that hits a present key under a set flag, the
    operations keep the cache consistent. *)
Lemma sound_run_consistent self :
  sound_run self -> well_formed self /\ cache_consistent self.
Proof.
  induction 1 as [args|o self _ [Hwf Hc] Hs].
  - apply init_well_formed_consistent.
  - by apply step_preserves_cache.
Qed.

(** *** Sample dictionaries *)

Definition key_a : atom := AStr "a".
Definition key_b : atom := AStr "b".
Definition one : value := VAtom (AInt 1).
Definition two : value := VAtom (AInt 2).

(** [IndexedOrderedDict([("a", 1), ("b", 2)])] *)
Definition sample_ab : t := __init__ [(key_a, one); (key_b, two)].

(** [d = IndexedOrderedDict(); d["a"] = 1; d["a"] = 2] *)
Definition overwritten : t := run [Setitem key_a one; Setitem key_a two] (__init__ []).

(** *** Stores *)

(** C2: [self[key] = value] always returns; afterwards the flag
    [_need_reindex] is exactly "key was absent before the call" (so it is
    clear for a key already present, whatever it was before), the cached
    arrays [_index_key] and [_key_index] are the ones from before the call,
    and the entries are those of the base-class store: the key order is kept
    for a present key and extended at the end for a new one. *)
Theorem setitem_flag_is_key_absent (self : t) (key : atom) (value : value) :
  let self' := (__setitem__ key value self).1 in
  (__setitem__ key value self).2 = Ok tt /\
  _need_reindex self' = negb (contains self key) /\
  _index_key self' = _index_key self /\
  _key_index self' = _key_index self /\
  entries self' = OrderedDict.__setitem__ (entries self) key value /\
  keys self' = if contains self key then keys self else keys self ++ [key].
Proof.
  simpl. split_and!; try done.
  unfold keys, contains. simpl. apply OrderedDictFacts.keys_setitem.
Qed.

(** C1 (the code departs from it): after [d = IndexedOrderedDict();
    d["a"] = 1; d["a"] = 2] the flag is clear although the index was never
    built: the cached arrays are empty while the key sequence is ["a"], and
    position 0, which is in range, is reported out of range. *)
Theorem overwrite_clears_flag_of_stale_index :
  reachable overwritten /\
  _need_reindex overwritten = false /\
  keys overwritten = [key_a] /\
  _index_key overwritten = [] /\
  _key_index overwritten = ∅ /\
  (get_key_by_index 0 overwritten).2 = Raise IndexError /\
  ~ cache_consistent overwritten.
Proof.
  split_and!; try reflexivity.
  - exists [], [Setitem key_a one; Setitem key_a two]. reflexivity.
  - intros H. destruct (H eq_refl) as [H1 _]. discriminate H1.
Qed.

(** *** Positional accessors *)

(** C6, as the code has it: on a dictionary whose cache is consistent, an
    index below [-n] or at least [n] makes [get_key_by_index],
    [get_value_by_index] and [get_item_by_index] raise IndexError; an index
    in [[-n, 0)] is not rejected, it counts from the end and gives what
    [index + n] gives. *)
Theorem positional_accessors_range (self : t) (index : Z) :
  cache_consistent self ->
  (index < - len self \/ len self <= index ->
     (get_key_by_index index self).2 = Raise IndexError /\
     (get_value_by_index index self).2 = Raise IndexError /\
     (get_item_by_index index self).2 = Raise IndexError /\
     Spec.classify IndexError = Spec.IndexOutOfRange) /\
  (- len self <= index < 0 ->
     get_key_by_index index self = get_key_by_index (index + len self) self /\
     get_value_by_index index self = get_value_by_index (index + len self) self /\
     get_item_by_index index self = get_item_by_index (index + len self) self).
Proof.
  intros Hc. pose proof (build_index_index_key self Hc) as Hk.
  pose proof (keys_length self) as Hlen.
  assert (forall i, get_key_by_index i self =
                    ((_build_index self).1, list_getitem (keys self) i)) as Hget.
  { intros i. unfold get_key_by_index, bind, read.
    destruct (_build_index self) as [s r] eqn:E.
    assert (r = Ok tt) as ->.
    { unfold _build_index in E. destruct (_need_reindex self); by inversion E. }
    simpl in Hk. by rewrite Hk. }
  split.
  - intros Hout. rewrite <- Hlen in Hout.
    apply list_getitem_out_of_range in Hout.
    unfold get_value_by_index, get_item_by_index, bind.
    rewrite Hget, Hout. done.
  - intros Hin. rewrite <- Hlen in Hin.
    apply list_getitem_negative in Hin.
    unfold get_value_by_index, get_item_by_index, bind.
    rewrite !Hget, Hin, Hlen. done.
Qed.

Lemma positional_accessors_range_witness :
  (get_key_by_index 2 sample_ab).2 = Raise IndexError /\
  get_item_by_index (-2) sample_ab = get_item_by_index 0 sample_ab.
Proof.
  assert (cache_consistent sample_ab) as Hc by (intros H; discriminate H).
  split.
  - apply (positional_accessors_range sample_ab 2 Hc). right. vm_compute. discriminate.
  - apply (positional_accessors_range sample_ab (-2) Hc). vm_compute. split; [discriminate|reflexivity].
Defined.

(** C6 as stated does not hold: with two entries, index [-1] lies outside
    [[0, 2)], yet the three accessors return the last entry. *)
Lemma negative_index_returns_entry :
  ~ (0 <= -1 < len sample_ab) /\
  (get_key_by_index (-1) sample_ab).2 = Ok key_b /\
  (get_value_by_index (-1) sample_ab).2 = Ok two /\
  (get_item_by_index (-1) sample_ab).2 = Ok (key_b, two) /\
  ~ Spec.fails_with (get_key_by_index (-1) sample_ab).2 Spec.IndexOutOfRange.
Proof.
  split_and!; try reflexivity.
  - lia.
  - intros (e & He & _). discriminate He.
Qed.

End IndexFacts.

(** ** copy *)

Module CopyFacts.
Import IndexedOrderedDict IndexFacts.

(** What makes [v'] a deep copy of [v] in a store: an atom is its own copy,
    a list is copied to another object with the same content. *)
Definition is_deepcopy (h : heap) (v v' : value) : Prop :=
  match v, v' with
  | VAtom a, VAtom b => a = b
  | VList l, VList l' => l <> l' /\ is_Some (h !! l) /\ h !! l' = h !! l
  | _, _ => False
  end.

Lemma deepcopy_is_deepcopy (h : heap) (v : value) :
  (forall l, v = VList l -> is_Some (h !! l)) ->
  is_deepcopy (deepcopy h v).1 v (deepcopy h v).2.
Proof.
  destruct v as [a|l]; simpl; [done|]. intros H.
  destruct (H l eq_refl) as [o Ho]. rewrite Ho. simpl.
  pose proof (lookup_lt_Some _ _ _ Ho) as Hlt.
  split_and!.
  - lia.
  - exists o. by rewrite lookup_app_l by lia.
  - rewrite (lookup_app_l h [o] l) by lia. rewrite Ho.
    rewrite lookup_app_r by lia. by rewrite Nat.sub_diag.
Qed.

(** A store with the list [[1]] at address 0, and [{"a": <that list>}]. *)
Definition store_list : heap := [[AInt 1]].
Definition holds_list : t := __init__ [(key_a, VList 0%nat)].

(** C10, as the code has it: [copy] leaves [self] as it was and returns an
    object with the entries of [self] - the same keys in the same order,
    bound to the very same value objects (a shallow copy) - whose flag and
    cached arrays equal those of [self]; neither index is rebuilt. *)
Theorem copy_shares_values (self : t) :
  well_formed self ->
  (copy self).1 = self /\
  entries (copy self).2 = entries self /\
  _need_reindex (copy self).2 = _need_reindex self /\
  _index_key (copy self).2 = _index_key self /\
  _key_index (copy self).2 = _key_index self.
Proof.
  intros Hwf. split_and!; try reflexivity.
  unfold copy. cbn [snd entries].
  rewrite init_entries. by apply OrderedDictFacts.of_pairs_entries.
Qed.

Lemma copy_shares_values_witness :
  entries (copy holds_list).2 = [(key_a, VList 0%nat)] /\
  _index_key (copy (_build_index sample_ab).1).2 = [key_a; key_b].
Proof.
  split.
  - apply (copy_shares_values holds_list). vm_compute.
    apply NoDup_cons. split; [apply not_elem_of_nil | apply NoDup_nil_2].
  - transitivity (_index_key (_build_index sample_ab).1); [|reflexivity].
    apply (copy_shares_values (_build_index sample_ab).1). vm_compute.
    apply NoDup_cons. split.
    + intros H. apply list_elem_of_singleton in H. discriminate H.
    + apply NoDup_cons. split; [apply not_elem_of_nil | apply NoDup_nil_2].
Defined.

(** C10 as stated does not hold: the copy of [{"a": [1]}] holds under "a"
    the list object of the original, where a deep copy is another object. *)
Lemma copy_value_is_not_a_deepcopy :
  OrderedDict.get (entries holds_list) key_a = Some (VList 0%nat) /\
  OrderedDict.get (entries (copy holds_list).2) key_a = Some (VList 0%nat) /\
  ~ is_deepcopy store_list (VList 0%nat) (VList 0%nat) /\
  (deepcopy store_list (VList 0%nat)).2 = VList 1%nat.
Proof.
  split_and!; try reflexivity.
  intros (H & _). by apply H.
Qed.

End CopyFacts.

(** ** ParamDict: keys, typed access *)

Module ParamFacts.
Import IndexedOrderedDict ParamDict IndexFacts.

(** [ParamDict({"x": "5"})], in an empty store *)
Definition sample_x5 : state := ([], IndexedOrderedDict.__init__ [(AStr "x", VAtom (AStr "5"))]).

(** A coercion that passes a value of the requested type through, reads
    the string "5" as the integer 5, and refuses the rest. *)
Definition sample_as_type (h : heap) (v : value) (ty : pytype) : result value :=
  if decide (type v = ty) then Ok v
  else match v, ty with
       | VAtom (AStr "5"), int => Ok (VAtom (AInt 5))
       | _, _ => Raise TypeError
       end.

(** C5: [ParamDict.__setitem__] with a key that is not a string raises at
    the [assert] (the failure the specification files under TypeError) and
    leaves the dictionary as it was: entries, order, flag and cached arrays.
    The same holds where the store is reached through [update] and through
    the constructor: the call raises at that pair, and the dictionary is the
    one from before the pair. *)
Theorem non_string_key_rejected (self : IndexedOrderedDict.t) (key : atom) (value : value) :
  is_str key = false ->
  ParamDict.__setitem__ key value self = (self, Raise AssertionError) /\
  Spec.fails_with (ParamDict.__setitem__ key value self).2 Spec.TypeError /\
  (forall h rest on_dup deep,
     on_dup = OVERWRITE \/ contains self key = false ->
     exists h',
       update (SPairs ((key, value) :: rest)) on_dup deep (h, self)
       = ((h', self), Raise AssertionError)) /\
  (forall h rest deep,
     (ParamDict.__init__ (SPairs ((key, value) :: rest)) deep h).2 = Raise AssertionError).
Proof.
  intros Hk.
  assert (ParamDict.__setitem__ key value self = (self, Raise AssertionError)) as Hset.
  { unfold ParamDict.__setitem__, assert_, bind. by rewrite Hk. }
  assert (forall h rest on_dup deep s,
     on_dup = OVERWRITE \/ contains s key = false ->
     exists h',
       update (SPairs ((key, value) :: rest)) on_dup deep (h, s)
       = ((h', s), Raise AssertionError)) as Hupd.
  { intros h rest on_dup deep s Hcase.
    unfold update. simpl. unfold bind at 1. unfold read at 1. simpl.
    assert ((on_dup =? OVERWRITE) || negb (contains s key) = true) as ->.
    { destruct Hcase as [-> | ->]; [done|]. by rewrite orb_true_r. }
    unfold ParamDict.__setitem__, assert_, bind, lift. rewrite Hk.
    destruct deep; simpl.
    - unfold copy_deepcopy. simpl. destruct (deepcopy h value) as [h' v']. by exists h'.
    - by exists h. }
  split_and!.
  - done.
  - rewrite Hset. by exists AssertionError.
  - intros h rest on_dup deep. apply Hupd.
  - intros h rest deep. unfold ParamDict.__init__.
    destruct (Hupd h rest OVERWRITE deep (IndexedOrderedDict.__init__ [])) as [h' ->]; [by left|done].
Qed.

Lemma non_string_key_rejected_witness :
  ParamDict.__setitem__ (AInt 1) two sample_ab = (sample_ab, Raise AssertionError).
Proof. apply (non_string_key_rejected sample_ab (AInt 1) two). reflexivity. Defined.

(** C4 (the code departs from it): [ParamDict().update([("a", 1)], on_dup=7)]
    returns, with the pair stored; no ValueError is raised for the
    unsupported policy 7 because "a" was not in the dictionary. *)
Theorem unsupported_policy_unnoticed_on_new_key :
  7 <> OVERWRITE /\ 7 <> THROW /\ 7 <> IGNORE /\
  update (SPairs [(key_a, one)]) 7 true ([], IndexedOrderedDict.__init__ [])
  = (([], mk [(key_a, one)] true ∅ []), Ok tt).
Proof. split_and!; try done. Qed.

(** C7: [get(key, default)] raises NoneArgumentError (an InvalidArgument
    failure) when [default] is None; otherwise, for a key that is present it
    gives what [as_type] gives for the stored value and [type(default)] -
    hence TypeError when [as_type] raises it - and for an absent key it
    returns [default]; the dictionary and the store are left as they were. *)
Theorem typed_get (as_type : heap -> value -> pytype -> result value)
    (s : state) (key : atom) (default : value) :
  (default = VAtom ANone ->
     get as_type key default s = (s, Raise NoneArgumentError) /\
     Spec.fails_with (get as_type key default s).2 Spec.InvalidArgument) /\
  (default <> VAtom ANone ->
     forall v, OrderedDict.get (entries s.2) key = Some v ->
     get as_type key default s = (s, as_type s.1 v (type default)) /\
     (as_type s.1 v (type default) = Raise TypeError ->
      Spec.fails_with (get as_type key default s).2 Spec.TypeError)) /\
  (default <> VAtom ANone ->
     OrderedDict.get (entries s.2) key = None ->
     get as_type key default s = (s, Ok default)).
Proof.
  destruct s as [h self]. split_and!.
  - intros ->. split; [done|]. by exists NoneArgumentError.
  - intros Hd v Hv. simpl in Hv.
    assert (get as_type key default (h, self) = (h, self, as_type h v (type default))) as Hget.
    { unfold get, bind, read, lift, __getitem__, contains, OrderedDict.contains. simpl.
      destruct default as [[| |]|]; try done; simpl; rewrite Hv; simpl; by rewrite Hv. }
    split; [done|]. simpl. intros HT. rewrite Hget. simpl. rewrite HT. by exists TypeError.
  - intros Hd Hv. simpl in Hv.
    unfold get, bind, read, contains, OrderedDict.contains. simpl.
    destruct default as [[| |]|]; try done; simpl; by rewrite Hv.
Qed.

Lemma typed_get_witness :
  get sample_as_type (AStr "x") (VAtom (AInt 0)) sample_x5 = (sample_x5, Ok (VAtom (AInt 5))) /\
  get sample_as_type (AStr "y") (VAtom (AInt 0)) sample_x5 = (sample_x5, Ok (VAtom (AInt 0))) /\
  get sample_as_type (AStr "x") (VAtom ANone) sample_x5 = (sample_x5, Raise NoneArgumentError).
Proof.
  destruct (typed_get sample_as_type sample_x5 (AStr "x") (VAtom (AInt 0)))
    as (_ & Hpresent & _).
  destruct (typed_get sample_as_type sample_x5 (AStr "y") (VAtom (AInt 0)))
    as (_ & _ & Habsent).
  destruct (typed_get sample_as_type sample_x5 (AStr "x") (VAtom ANone))
    as (Hnone & _).
  split_and!.
  - assert (VAtom (AInt 0) <> VAtom ANone) as Hd by discriminate.
    destruct (Hpresent Hd (VAtom (AStr "5")) eq_refl) as [H _]. exact H.
  - apply Habsent; [discriminate | reflexivity].
  - apply Hnone. reflexivity.
Defined.

End ParamFacts.

(** ** ParamDict.update *)

Module UpdateFacts.
Import IndexedOrderedDict ParamDict IndexFacts.

(** "The pair is set": the value, deep-copied first when [deep] is on, is
    stored under the key. *)
Definition set_pair (deep : bool) (s : state) (kv : atom * value) : state :=
  let '(h', v') := if deep then deepcopy s.1 kv.2 else (s.1, kv.2) in
  (h', (IndexedOrderedDict.__setitem__ kv.1 v' s.2).1).

(** "The pair is set only when its key is absent, and skipped otherwise". *)
Definition set_if_absent (deep : bool) (s : state) (kv : atom * value) : state :=
  if contains s.2 kv.1 then s else set_pair deep s kv.

Definition string_keys (pairs : list (atom * value)) : Prop :=
  Forall (fun kv => is_str kv.1 = true) pairs.

Lemma keys_set_pair deep s kv :
  keys (set_pair deep s kv).2 = if contains s.2 kv.1 then keys s.2 else keys s.2 ++ [kv.1].
Proof.
  unfold set_pair. destruct deep; [destruct (deepcopy s.1 kv.2)|]; simpl;
    apply OrderedDictFacts.keys_setitem.
Qed.

Lemma update_loop_set k v rest on_dup deep s :
  is_str k = true ->
  (on_dup =? OVERWRITE) || negb (contains s.2 k) = true ->
  update_loop ((k, v) :: rest) on_dup deep s
  = update_loop rest on_dup deep (set_pair deep s (k, v)).
Proof.
  intros Hk Hc. destruct s as [h self]. simpl in Hc.
  cbn [update_loop]. unfold bind at 1. unfold read at 1. cbn [snd]. rewrite Hc.
  unfold set_pair, ParamDict.__setitem__, assert_, lift, bind, copy_deepcopy, ret.
  rewrite Hk. destruct deep; simpl; [destruct (deepcopy h v)|]; done.
Qed.

Lemma update_loop_present k v rest on_dup deep s :
  on_dup <> OVERWRITE ->
  contains s.2 k = true ->
  update_loop ((k, v) :: rest) on_dup deep s =
    if on_dup =? THROW then (s, Raise (KeyError_exists k))
    else if on_dup =? IGNORE then update_loop rest on_dup deep s
    else (s, Raise (ValueError_not_supported on_dup)).
Proof.
  intros Hd Hc. cbn [update_loop]. unfold bind at 1. unfold read at 1. rewrite Hc.
  apply Z.eqb_neq in Hd. rewrite Hd. cbn [orb negb].
  unfold raise. by destruct (on_dup =? THROW), (on_dup =? IGNORE).
Qed.

Lemma string_keys_cons kv pairs :
  string_keys (kv :: pairs) <-> is_str kv.1 = true /\ string_keys pairs.
Proof. unfold string_keys. by rewrite Forall_cons. Qed.

Lemma update_overwrite pairs deep : forall s,
  string_keys pairs ->
  update_loop pairs OVERWRITE deep s = (foldl (set_pair deep) s pairs, Ok tt).
Proof.
  induction pairs as [|[k v] pairs IH]; intros s Hs; [done|].
  apply string_keys_cons in Hs as [Hk Hs].
  rewrite update_loop_set by done. by rewrite IH.
Qed.

Lemma update_ignore pairs deep : forall s,
  string_keys pairs ->
  update_loop pairs IGNORE deep s = (foldl (set_if_absent deep) s pairs, Ok tt).
Proof.
  induction pairs as [|[k v] pairs IH]; intros s Hs; [done|].
  apply string_keys_cons in Hs as [Hk Hs]. cbn [foldl]. unfold set_if_absent at 2.
  cbn [fst]. destruct (contains s.2 k) eqn:E.
  - rewrite update_loop_present by done. simpl. by apply IH.
  - rewrite update_loop_set by (rewrite ?E; done). by apply IH.
Qed.

Lemma update_throw_all_new pairs deep : forall s,
  string_keys pairs ->
  NoDup pairs.*1 ->
  (forall key, key ∈ pairs.*1 -> key ∉ keys s.2) ->
  update_loop pairs THROW deep s = (foldl (set_pair deep) s pairs, Ok tt).
Proof.
  induction pairs as [|[k v] pairs IH]; intros s Hs Hnd Hnew; [done|].
  apply string_keys_cons in Hs as [Hk Hs].
  change (NoDup (k :: pairs.*1)) in Hnd. apply NoDup_cons in Hnd as [Hkp Hnd].
  assert (contains s.2 k = false) as Hc.
  { destruct (contains s.2 k) eqn:E; [|done]. apply contains_elem_of in E.
    exfalso. apply (Hnew k); [apply list_elem_of_here|done]. }
  rewrite update_loop_set by (rewrite ?Hc; done). cbn [foldl].
  apply IH; [done..|].
  intros key Hin. rewrite keys_set_pair. cbn [fst]. rewrite Hc.
  rewrite elem_of_app, list_elem_of_singleton. intros [Hold| ->].
  - apply (Hnew key); [by apply list_elem_of_further|done].
  - done.
Qed.

Lemma update_throw_first_present pre : forall s k v post deep,
  string_keys pre ->
  NoDup pre.*1 ->
  (forall key, key ∈ pre.*1 -> key ∉ keys s.2) ->
  k ∈ keys s.2 \/ k ∈ pre.*1 ->
  update_loop (pre ++ (k, v) :: post) THROW deep s
  = (foldl (set_pair deep) s pre, Raise (KeyError_exists k)).
Proof.
  induction pre as [|[k0 v0] pre IH]; intros s k v post deep Hs Hnd Hnew Hk.
  - destruct Hk as [Hk|Hk]; [|by apply elem_of_nil in Hk].
    apply contains_elem_of in Hk. simpl app. by rewrite update_loop_present.
  - apply string_keys_cons in Hs as [Hk0 Hs].
    change (NoDup (k0 :: pre.*1)) in Hnd. apply NoDup_cons in Hnd as [Hkp Hnd].
    assert (contains s.2 k0 = false) as Hc.
    { destruct (contains s.2 k0) eqn:E; [|done]. apply contains_elem_of in E.
      exfalso. apply (Hnew k0); [apply list_elem_of_here|done]. }
    change (((k0, v0) :: pre) ++ (k, v) :: post) with ((k0, v0) :: (pre ++ (k, v) :: post)).
    rewrite update_loop_set by (rewrite ?Hc; done). cbn [foldl].
    apply IH; [done..| |].
    + intros key Hin. rewrite keys_set_pair. cbn [fst]. rewrite Hc.
      rewrite elem_of_app, list_elem_of_singleton. intros [Hold| ->].
      * apply (Hnew key); [by apply list_elem_of_further|done].
      * done.
    + rewrite keys_set_pair. cbn [fst]. rewrite Hc.
      rewrite elem_of_app, list_elem_of_singleton.
      destruct Hk as [Hk|Hk]; [by left; left|].
      change (k ∈ k0 :: pre.*1) in Hk. apply elem_of_cons in Hk as [->|Hk]; auto.
Qed.

Lemma get_set_pair deep s kv :
  OrderedDict.get (entries (set_pair deep s kv).2) kv.1
  = Some (if deep then (deepcopy s.1 kv.2).2 else kv.2).
Proof.
  unfold set_pair. destruct deep; [destruct (deepcopy s.1 kv.2)|]; simpl;
    rewrite OrderedDictFacts.get_setitem; by rewrite decide_True.
Qed.

Definition key_c : atom := AStr "c".
Definition three : value := VAtom (AInt 3).
Definition nine : value := VAtom (AInt 9).

(** C3: [update] goes through the pairs of the source in order.  Under
    OVERWRITE every pair is set, under IGNORE a pair is set when its key is
    absent from the dictionary as it is at that moment and skipped otherwise.
    Under THROW, when the keys of the source are distinct and all new, every
    pair is set; and at the first pair whose key is already there - in the
    dictionary from before the call or among the earlier pairs of the call -
    the call raises the KeyError "exists in dict" (DuplicateKey), the earlier
    pairs having been set.  A pair that is set stores the value itself, or
    its deep copy when [deep] is on. *)
Theorem update_merge_policies (other : source) (deep : bool) (s : state) :
  string_keys (to_kv_iterable other) ->
  let pairs := to_kv_iterable other in
  update other OVERWRITE deep s = (foldl (set_pair deep) s pairs, Ok tt) /\
  update other IGNORE deep s = (foldl (set_if_absent deep) s pairs, Ok tt) /\
  (NoDup pairs.*1 ->
   (forall key, key ∈ pairs.*1 -> key ∉ keys s.2) ->
   update other THROW deep s = (foldl (set_pair deep) s pairs, Ok tt)) /\
  (forall pre k v post,
     pairs = pre ++ (k, v) :: post ->
     NoDup pre.*1 ->
     (forall key, key ∈ pre.*1 -> key ∉ keys s.2) ->
     k ∈ keys s.2 \/ k ∈ pre.*1 ->
     update other THROW deep s = (foldl (set_pair deep) s pre, Raise (KeyError_exists k)) /\
     Spec.classify (KeyError_exists k) = Spec.DuplicateKey) /\
  (forall s' kv,
     OrderedDict.get (entries (set_pair deep s' kv).2) kv.1
     = Some (if deep then (deepcopy s'.1 kv.2).2 else kv.2)).
Proof.
  intros Hs pairs. unfold update. fold pairs. split_and!.
  - by apply update_overwrite.
  - by apply update_ignore.
  - intros Hnd Hnew. by apply update_throw_all_new.
  - intros pre k v post Heq Hnd Hnew Hk. split; [|done].
    rewrite Heq. apply update_throw_first_present; try done.
    unfold string_keys in *. fold pairs in Hs. rewrite Heq in Hs.
    by apply Forall_app in Hs as [Hs _].
  - intros s' kv. apply get_set_pair.
Qed.

Lemma update_merge_policies_witness :
  let base : state := ([], sample_ab) in
  let source_bc := SPairs [(key_b, nine); (key_c, three)] in
  let source_cb := SPairs [(key_c, three); (key_b, nine)] in
  (update source_bc OVERWRITE true base).1.2
    = mk [(key_a, one); (key_b, nine); (key_c, three)] true ∅ [] /\
  (update source_bc IGNORE true base).1.2
    = mk [(key_a, one); (key_b, two); (key_c, three)] true ∅ [] /\
  update source_bc THROW true base = (base, Raise (KeyError_exists key_b)) /\
  update source_cb THROW true base
    = (([], mk [(key_a, one); (key_b, two); (key_c, three)] true ∅ []),
       Raise (KeyError_exists key_b)).
Proof.
  intros base source_bc source_cb.
  assert (string_keys (to_kv_iterable source_bc)) as Hbc by (repeat constructor).
  assert (string_keys (to_kv_iterable source_cb)) as Hcb by (repeat constructor).
  assert (key_b ∈ keys base.2) as Hb by (by apply contains_elem_of).
  destruct (update_merge_policies source_bc true base Hbc) as (Ho & Hi & _ & Ht & _).
  destruct (update_merge_policies source_cb true base Hcb) as (_ & _ & _ & Ht' & _).
  split_and!.
  - rewrite Ho. reflexivity.
  - rewrite Hi. reflexivity.
  - destruct (Ht [] key_b nine [(key_c, three)]) as [-> _]; try done.
    + apply NoDup_nil_2.
    + intros key Hin. by apply elem_of_nil in Hin.
    + by left.
  - destruct (Ht' [(key_c, three)] key_b nine []) as [-> _]; try done.
    + apply NoDup_singleton.
    + intros key Hin. apply list_elem_of_singleton in Hin as ->.
      intros Hin. apply contains_elem_of in Hin. discriminate Hin.
    + by left.
Defined.

End UpdateFacts.

(** ** equals *)

Module EqualsFacts.
Import OrderedDict OrderedDictFacts.

(** Same keys in the same order, with equal values. *)
Definition same_pairs_in_order (h : heap) (a b : OrderedDict.t) : Prop :=
  Forall2 (fun kv kv' => kv.1 = kv'.1 /\ eqb h kv.2 kv'.2 = true) a b.

(** The same key-to-value relation: a key is bound in both or in neither,
    and to equal values. *)
Definition same_relation (h : heap) (a b : OrderedDict.t) : Prop :=
  forall key,
    match get a key, get b key with
    | Some v, Some v' => eqb h v v' = true
    | None, None => True
    | _, _ => False
    end.

(** A dictionary passed as the other object has unique keys. *)
Definition wf_source (other : source) : Prop :=
  match other with
  | SOrderedDict od | SDict od => NoDup (keys od)
  | _ => True
  end.

Lemma get_is_Some od key : is_Some (get od key) <-> key ∈ keys od.
Proof.
  destruct (get od key) eqn:E.
  - split; [intros _|eauto]. destruct (decide (key ∈ keys od)) as [|Hn]; [done|].
    apply get_None in Hn. congruence.
  - apply get_None in E. split; [by intros [? ?]|done].
Qed.

Lemma lookup_get (od : OrderedDict.t) (i : nat) key v :
  NoDup (keys od) -> od !! i = Some (key, v) -> get od key = Some v.
Proof.
  intros Hnd Hi. apply elem_get_Some; [done|]. by eapply list_elem_of_lookup_2.
Qed.

Lemma dict_eq_intro h (a b : OrderedDict.t) :
  length a = length b ->
  (forall key v, (key, v) ∈ a -> exists v', get b key = Some v' /\ eqb h v v' = true) ->
  dict_eq h a b = true.
Proof.
  intros Hlen Hall. unfold dict_eq. apply andb_true_intro. split.
  - by apply bool_decide_eq_true.
  - apply forallb_forall. intros [k v] Hin. apply list_elem_of_In in Hin.
    destruct (Hall k v Hin) as (v' & Hb & Hv). simpl. by rewrite Hb.
Qed.

Lemma dict_eq_elim h (a b : OrderedDict.t) :
  dict_eq h a b = true ->
  length a = length b /\
  (forall key v, (key, v) ∈ a -> exists v', get b key = Some v' /\ eqb h v v' = true).
Proof.
  unfold dict_eq. intros H. apply andb_prop in H as [Hlen Hall].
  apply bool_decide_eq_true in Hlen. split; [done|].
  intros key v Hin. rewrite forallb_forall in Hall.
  apply list_elem_of_In in Hin. specialize (Hall _ Hin). simpl in Hall.
  destruct (get b key) as [v'|]; [|done]. by exists v'.
Qed.

Lemma dict_eq_spec h (a b : OrderedDict.t) :
  NoDup (keys a) -> NoDup (keys b) ->
  dict_eq h a b = true <-> same_relation h a b.
Proof.
  intros Ha Hb. split.
  - intros H. apply dict_eq_elim in H as [Hlen Hall].
    assert (forall key, key ∈ keys a -> key ∈ keys b) as Hsub.
    { intros key Hin. apply get_is_Some in Hin as [v Hv].
      apply get_Some_elem in Hv. destruct (Hall _ _ Hv) as (v' & Hv' & _).
      apply get_is_Some. eauto. }
    assert (keys a ≡ₚ keys b) as Hperm.
    { apply submseteq_length_Permutation.
      - by apply NoDup_submseteq.
      - unfold keys. rewrite !length_fmap. lia. }
    intros key. destruct (get a key) as [v|] eqn:Ea.
    + apply get_Some_elem in Ea. destruct (Hall _ _ Ea) as (v' & -> & Hv). done.
    + destruct (get b key) as [v'|] eqn:Eb; [|done].
      apply get_None in Ea. apply Ea. rewrite Hperm. apply get_is_Some. eauto.
  - intros H. apply dict_eq_intro.
    + assert (keys a ≡ₚ keys b) as Hperm.
      { apply NoDup_Permutation; [done..|]. intros key.
        rewrite <- !get_is_Some. specialize (H key).
        by destruct (get a key), (get b key). }
      apply Permutation_length in Hperm. unfold keys in Hperm.
      by rewrite !length_fmap in Hperm.
    + intros key v Hin. apply elem_get_Some in Hin; [|done].
      specialize (H key). rewrite Hin in H.
      destruct (get b key) as [v'|]; [|done]. by exists v'.
Qed.

Lemma zip_keys_eqb (l1 : list atom) : forall l2 : list atom,
  length l1 = length l2 ->
  forallb (fun kk => bool_decide (kk.1 = kk.2)) (zip l1 l2) = true <-> l1 = l2.
Proof.
  induction l1 as [|x l1 IH]; intros [|y l2] Hlen; try done.
  simpl in Hlen. injection Hlen as Hlen. simpl.
  rewrite andb_true_iff, bool_decide_eq_true, (IH l2 Hlen).
  split; [by intros [-> ->]|by intros [= -> ->]].
Qed.

Lemma same_pairs_keys h a b : same_pairs_in_order h a b -> keys a = keys b.
Proof.
  induction 1 as [|[k v] [k' v'] a b [Hk _] _ IH]; [done|].
  simpl in Hk. subst k'. change (k :: keys a = k :: keys b). by rewrite IH.
Qed.

Lemma od_eq_spec h (a b : OrderedDict.t) :
  NoDup (keys a) -> NoDup (keys b) ->
  od_eq h a b = true <-> same_pairs_in_order h a b.
Proof.
  intros Ha Hb. unfold od_eq. rewrite andb_true_iff. split.
  - intros [Hd Hk]. apply dict_eq_elim in Hd as [Hlen Hall].
    apply zip_keys_eqb in Hk; [|unfold keys; by rewrite !length_fmap].
    apply Forall2_same_length_lookup_2; [done|].
    intros i [k v] [k' v'] Hi Hi'.
    assert (keys a !! i = Some k) as Hki by (unfold keys; by rewrite list_lookup_fmap, Hi).
    assert (keys b !! i = Some k') as Hki' by (unfold keys; by rewrite list_lookup_fmap, Hi').
    rewrite Hk, Hki' in Hki. injection Hki as ->. split; [done|]. simpl.
    destruct (Hall k v) as (v'' & Hg & Hv); [by eapply list_elem_of_lookup_2|].
    rewrite (lookup_get b i k v' Hb Hi') in Hg. by injection Hg as <-.
  - intros H. pose proof (Forall2_length _ _ _ H) as Hlen.
    pose proof (same_pairs_keys _ _ _ H) as Hk. split.
    + apply dict_eq_intro; [done|]. intros key v Hin.
      apply list_elem_of_lookup in Hin as [i Hi].
      destruct (Forall2_lookup_l _ _ _ _ _ H Hi) as ([k' v'] & Hi' & Hkk & Hv).
      simpl in Hkk, Hv. subst k'. exists v'. split; [|done].
      by apply (lookup_get b i).
    + apply zip_keys_eqb; [|done]. unfold keys. by rewrite !length_fmap.
Qed.

Import IndexedOrderedDict IndexFacts.

(** [sample_ab] after [move_to_end("a")] *)
Definition sample_ba : IndexedOrderedDict.t := (move_to_end key_a true sample_ab).1.

(** C8: [equals(other, with_order=True)] is true exactly when the entries
    of [self] and those of the other object are the same keys in the same
    order with equal values; [equals(other, with_order=False)] is true
    exactly when both bind the same keys to equal values, in any order.  The
    dictionary built from [("a", 1), ("b", 2)] equals itself in both modes;
    against itself after [move_to_end("a")] it is unequal with order and
    equal without. *)
Theorem equals_modes :
  (forall (h : heap) (self : IndexedOrderedDict.t) (other : source),
     well_formed self -> wf_source other ->
     let theirs := of_pairs (to_kv_iterable other) in
     (equals h self other true = true <-> same_pairs_in_order h (entries self) theirs) /\
     (equals h self other false = true <-> same_relation h (entries self) theirs)) /\
  (forall h : heap,
     entries sample_ab = [(key_a, one); (key_b, two)] /\
     entries sample_ba = [(key_b, two); (key_a, one)] /\
     equals h sample_ab (SOrderedDict (entries sample_ab)) true = true /\
     equals h sample_ab (SOrderedDict (entries sample_ba)) true = false /\
     equals h sample_ab (SOrderedDict (entries sample_ab)) false = true /\
     equals h sample_ab (SOrderedDict (entries sample_ba)) false = true).
Proof.
  split.
  - intros h self other Hwf Hsrc theirs.
    assert (NoDup (OrderedDict.keys theirs)) as Ht by apply NoDup_of_pairs.
    assert (is_Dict other = true -> to_kv_iterable other = theirs) as Hdict.
    { intros Hd. unfold theirs. destruct other; try done; simpl in *;
        by rewrite of_pairs_entries. }
    split.
    + rewrite <- od_eq_spec by done. unfold equals, __eq__.
      destruct (is_OrderedDict other) eqn:E; [|done].
      rewrite Hdict; [done|]. by destruct other.
    + rewrite <- dict_eq_spec by done. unfold equals, __eq__.
      destruct (is_OrderedDict other || negb (is_Dict other)) eqn:E; [done|].
      rewrite Hdict; [done|]. by destruct other.
  - intros h. split_and!; reflexivity.
Qed.

Lemma equals_modes_witness :
  same_pairs_in_order [] (entries sample_ab)
    (of_pairs (to_kv_iterable (SPairs [(key_a, one); (key_b, two)]))) /\
  same_relation [] (entries sample_ab)
    (of_pairs (to_kv_iterable (SDict (entries sample_ba)))).
Proof.
  destruct equals_modes as [H _].
  assert (well_formed sample_ab) as Hwf.
  { apply (bool_decide_unpack _). reflexivity. }
  assert (wf_source (SDict (entries sample_ba))) as Hsrc.
  { apply (bool_decide_unpack _). reflexivity. }
  split.
  - apply (H [] sample_ab (SPairs [(key_a, one); (key_b, two)]) Hwf I). reflexivity.
  - apply (H [] sample_ab (SDict (entries sample_ba)) Hwf Hsrc). reflexivity.
Defined.

End EqualsFacts.

(** ** to_json_str and the way back *)

Module JsonFacts.
Import Json IndexedOrderedDict ParamDict IndexFacts UpdateFacts EqualsFacts.

#[local] Arguments join : simpl never.

(** *** The decoder reads back what the encoder wrote *)






Lemma uint_chars d :
  Forall (fun c => is_int_char c = true) (list_ascii_of_string (NilEmpty.string_of_uint d)).
Proof. induction d; simpl; constructor; done. Qed.

Lemma encode_int_chars z : Forall (fun c => is_int_char c = true) (encode_int z).
Proof.
  unfold encode_int. destruct (Z.to_int z) as [d|d]; simpl.
  - destruct d; try apply (uint_chars (_ _)). simpl. by constructor.
  - constructor; [done|]. destruct d; try apply (uint_chars (_ _)). simpl. by constructor.
Qed.



































(** *** From the decoded members to a new ParamDict *)

(** What a value holds in a store; nothing for a reference to no object. *)
Definition content (h : heap) (v : value) : option jvalue :=
  match v with
  | VAtom a => Some (JAtom a)
  | VList l => JArray <$> h !! l
  end.


Lemma content_prefix h h' v x : h `prefix_of` h' -> content h v = Some x -> content h' v = Some x.
Proof.
  intros Hp. destruct v as [a|l]; simpl; [done|].
  destruct (h !! l) as [o|] eqn:E; [|done]. intros [= <-].
  by rewrite (prefix_lookup_Some _ _ _ _ E Hp).
Qed.


Lemma alloc_content h o :
  h `prefix_of` (alloc h o).1 /\ content (alloc h o).1 (VList (alloc h o).2) = Some (JArray o).
Proof.
  unfold alloc. simpl. split; [by apply prefix_app_r|].
  rewrite lookup_app_r by lia. by rewrite Nat.sub_diag.
Qed.


Lemma deepcopy_content h v x :
  content h v = Some x ->
  h `prefix_of` (deepcopy h v).1 /\ content (deepcopy h v).1 (deepcopy h v).2 = Some x.
Proof.
  destruct v as [a|l]; simpl; [done|].
  destruct (h !! l) as [o|] eqn:E; [|done]. intros [= <-]. apply alloc_content.
Qed.











(** *** Layout *)





























End JsonFacts.

(** ** Positional access on a consistent cache *)

Module AccessFacts.
Import IndexedOrderedDict IndexFacts.

Lemma get_key_by_index_eq self index :
  cache_consistent self ->
  get_key_by_index index self = ((_build_index self).1, list_getitem (keys self) index).
Proof.
  intros Hc. pose proof (build_index_index_key self Hc) as Hk.
  unfold get_key_by_index, bind, read.
  pose proof (build_index_result self) as Hr.
  destruct (_build_index self) as [s r]. simpl in *. subst r. by rewrite Hk.
Qed.

Lemma list_getitem_in_range {A} (l : list A) index :
  0 <= index < Z.of_nat (length l) ->
  exists x, l !! Z.to_nat index = Some x /\ list_getitem l index = Ok x.
Proof.
  intros H. unfold list_getitem. cbv zeta.
  destruct (lookup_lt_is_Some_2 l (Z.to_nat index)) as [x Hx]; [lia|].
  exists x. split; [done|].
  assert ((index <? 0) = false) as H1 by lia.
  assert ((Z.of_nat (length l) <=? index) = false) as H2 by lia.
  rewrite H1. cbv iota. rewrite H1, H2. simpl. by rewrite Hx.
Qed.

Lemma index_of_key_eq self key :
  index_of_key key self
  = ((_build_index self).1,
     match _key_index (_build_index self).1 !! key with
     | Some i => Ok i
     | None => Raise (KeyError key)
     end).
Proof.
  unfold index_of_key, bind, read. pose proof (build_index_result self) as Hr.
  destruct (_build_index self) as [s r]. simpl in *. by subst r.
Qed.

Lemma build_index_idem self : (_build_index (_build_index self).1).1 = (_build_index self).1.
Proof. unfold _build_index at 1. by rewrite build_index_flag. Qed.

(** X1: on a dictionary with a consistent cache, a position in range gives
    the key at that position of the key order, and [index_of_key] of that key
    gives the position back. *)
Theorem key_at_then_index_of (self : t) (index : Z) :
  well_formed self ->
  cache_consistent self ->
  0 <= index < len self ->
  exists key,
    keys self !! Z.to_nat index = Some key /\
    (get_key_by_index index self).2 = Ok key /\
    (index_of_key key self).2 = Ok index /\
    (index_of_key key (get_key_by_index index self).1).2 = Ok index.
Proof.
  intros Hwf Hc Hi. rewrite <- keys_length in Hi.
  destruct (list_getitem_in_range (keys self) index Hi) as (key & Hk & Hg).
  destruct (build_index_exact self Hwf Hc) as [_ Hinv].
  pose proof (build_index_entries self) as He.
  assert (_key_index (_build_index self).1 !! key = Some index) as Hki.
  { apply Hinv. unfold keys in *. rewrite He. split; [lia|done]. }
  exists key. rewrite get_key_by_index_eq by done. rewrite Hg. split_and!; try done.
  - rewrite index_of_key_eq. simpl. by rewrite Hki.
  - simpl. rewrite index_of_key_eq, build_index_idem. simpl. by rewrite Hki.
Qed.

Lemma key_at_witness_facts :
  well_formed sample_ab /\ cache_consistent sample_ab.
Proof.
  split; [apply (bool_decide_unpack _); reflexivity|]. intros H. discriminate H.
Qed.

Lemma key_at_then_index_of_witness :
  exists key,
    keys sample_ab !! Z.to_nat 1 = Some key /\
    (get_key_by_index 1 sample_ab).2 = Ok key /\
    (index_of_key key sample_ab).2 = Ok 1 /\
    (index_of_key key (get_key_by_index 1 sample_ab).1).2 = Ok 1.
Proof.
  apply (key_at_then_index_of sample_ab 1).
  - apply key_at_witness_facts.
  - apply key_at_witness_facts.
  - vm_compute. split; [discriminate|reflexivity].
Defined.

(** X2: on a dictionary with a consistent cache, [index_of_key] of a key of
    the dictionary returns its position, in range, at which
    [get_key_by_index] gives the key back; for any other key it raises
    KeyError. *)
Theorem index_of_key_present_or_missing (self : t) (key : atom) :
  well_formed self ->
  cache_consistent self ->
  (key ∈ keys self ->
   exists i, (index_of_key key self).2 = Ok i /\ 0 <= i < len self /\
             keys self !! Z.to_nat i = Some key /\
             (get_key_by_index i self).2 = Ok key) /\
  (key ∉ keys self -> (index_of_key key self).2 = Raise (KeyError key)).
Proof.
  intros Hwf Hc. destruct (build_index_exact self Hwf Hc) as [_ Hinv].
  pose proof (build_index_entries self) as He.
  assert (keys (_build_index self).1 = keys self) as Hkeys by (unfold keys; by rewrite He).
  rewrite index_of_key_eq. simpl. split.
  - intros Hin. apply list_elem_of_lookup in Hin as [j Hj].
    assert (_key_index (_build_index self).1 !! key = Some (Z.of_nat j)) as Hki.
    { apply Hinv. rewrite Hkeys, Nat2Z.id. split; [lia|done]. }
    rewrite Hki. exists (Z.of_nat j). pose proof (lookup_lt_Some _ _ _ Hj) as Hlt.
    rewrite <- keys_length. split_and!; try done; try lia.
    + by rewrite Nat2Z.id.
    + rewrite get_key_by_index_eq by done. simpl.
      destruct (list_getitem_in_range (keys self) (Z.of_nat j)) as (x & Hx & ->); [lia|].
      rewrite Nat2Z.id in Hx. congruence.
  - intros Hnin. destruct (_key_index (_build_index self).1 !! key) as [i|] eqn:E; [|done].
    apply Hinv in E as [_ E]. rewrite Hkeys in E.
    exfalso. apply Hnin. by eapply list_elem_of_lookup_2.
Qed.

Lemma index_of_key_present_or_missing_witness :
  (exists i, (index_of_key key_b sample_ab).2 = Ok i /\ 0 <= i < len sample_ab /\
             keys sample_ab !! Z.to_nat i = Some key_b /\
             (get_key_by_index i sample_ab).2 = Ok key_b) /\
  (index_of_key (AStr "z") sample_ab).2 = Raise (KeyError (AStr "z")).
Proof.
  destruct key_at_witness_facts as [Hwf Hc]. split.
  - apply (index_of_key_present_or_missing sample_ab key_b Hwf Hc).
    apply contains_elem_of. reflexivity.
  - apply (index_of_key_present_or_missing sample_ab (AStr "z") Hwf Hc).
    intros Hin. apply contains_elem_of in Hin. discriminate Hin.
Defined.

Lemma entry_at_key (self : t) (i : nat) key :
  keys self !! i = Some key -> exists v, entries self !! i = Some (key, v).
Proof.
  unfold keys, OrderedDict.keys. rewrite list_lookup_fmap.
  destruct (entries self !! i) as [[k v]|]; simpl; [|done].
  intros [= ->]. by exists v.
Qed.

(** X3: on a dictionary with a consistent cache, a position in range gives
    the entry stored at that position: [get_item_by_index] returns its key
    and value, [get_value_by_index] its value, [get_key_by_index] its key. *)
Theorem entry_at_position (self : t) (index : Z) :
  well_formed self ->
  cache_consistent self ->
  0 <= index < len self ->
  exists key v,
    entries self !! Z.to_nat index = Some (key, v) /\
    (get_key_by_index index self).2 = Ok key /\
    (get_value_by_index index self).2 = Ok v /\
    (get_item_by_index index self).2 = Ok (key, v).
Proof.
  intros Hwf Hc Hi. rewrite <- keys_length in Hi.
  destruct (list_getitem_in_range (keys self) index Hi) as (key & Hk & Hg).
  destruct (entry_at_key self _ key Hk) as [v Hv].
  pose proof (EqualsFacts.lookup_get (entries self) _ key v Hwf Hv) as Hget.
  pose proof (build_index_entries self) as He.
  exists key, v. unfold get_value_by_index, get_item_by_index, bind.
  rewrite get_key_by_index_eq by done. rewrite Hg.
  unfold __getitem__, read, ret. simpl. rewrite He, Hget. done.
Qed.

Lemma entry_at_position_witness :
  exists key v,
    entries sample_ab !! Z.to_nat 0 = Some (key, v) /\
    (get_key_by_index 0 sample_ab).2 = Ok key /\
    (get_value_by_index 0 sample_ab).2 = Ok v /\
    (get_item_by_index 0 sample_ab).2 = Ok (key, v).
Proof.
  destruct key_at_witness_facts as [Hwf Hc].
  apply (entry_at_position sample_ab 0 Hwf Hc). vm_compute. split; [discriminate|reflexivity].
Defined.

Lemma setitem_at (od : OrderedDict.t) : forall (i : nat) key v0 v,
  NoDup (OrderedDict.keys od) ->
  od !! i = Some (key, v0) ->
  OrderedDict.__setitem__ od key v = <[i := (key, v)]> od.
Proof.
  induction od as [|[k' v'] od IH]; intros i key v0 v Hnd Hi; [done|].
  change (NoDup (k' :: OrderedDict.keys od)) in Hnd. apply NoDup_cons in Hnd as [Hk' Hnd].
  destruct i as [|i]; simpl in *.
  - injection Hi as -> ->. by rewrite decide_True.
  - rewrite decide_False.
    + f_equal. by eapply IH.
    + intros Heq. subst. apply Hk'. apply list_elem_of_fmap. eexists (_, v0).
      split; [|by eapply list_elem_of_lookup_2]. done.
Qed.

Lemma remove_absent (od : OrderedDict.t) key :
  key ∉ OrderedDict.keys od -> OrderedDict.remove od key = od.
Proof.
  induction od as [|[k v] od IH]; intros Hn; [done|].
  change (key ∉ k :: OrderedDict.keys od) in Hn. apply not_elem_of_cons in Hn as [Hne Hn].
  unfold OrderedDict.remove in *. rewrite filter_cons_True by (simpl; congruence).
  by rewrite IH.
Qed.

Lemma remove_at (od : OrderedDict.t) : forall (i : nat) key v,
  NoDup (OrderedDict.keys od) ->
  od !! i = Some (key, v) ->
  OrderedDict.remove od key = delete i od.
Proof.
  induction od as [|[k' v'] od IH]; intros i key v Hnd Hi; [done|].
  change (NoDup (k' :: OrderedDict.keys od)) in Hnd. apply NoDup_cons in Hnd as [Hk' Hnd].
  destruct i as [|i]; simpl in *.
  - injection Hi as -> ->. unfold OrderedDict.remove.
    rewrite filter_cons_False by (simpl; intros H; by apply H).
    by apply remove_absent.
  - unfold OrderedDict.remove. rewrite filter_cons_True.
    + f_equal. by eapply IH.
    + simpl. intros Heq. subst. apply Hk'. apply list_elem_of_fmap. eexists (_, v).
      split; [|by eapply list_elem_of_lookup_2]. done.
Qed.

(** X4: on a dictionary with a consistent cache, [set_value_by_index] at a
    position in range replaces the value of the entry at that position and
    nothing else: the key order is the same, and the cache stays exact with
    the flag clear (a value-only update). *)
Theorem set_value_at_position (self : t) (index : Z) (value : value) :
  well_formed self ->
  cache_consistent self ->
  0 <= index < len self ->
  let self' := (set_value_by_index index value self).1 in
  exists key,
    keys self !! Z.to_nat index = Some key /\
    (set_value_by_index index value self).2 = Ok tt /\
    entries self' = <[Z.to_nat index := (key, value)]> (entries self) /\
    keys self' = keys self /\
    _need_reindex self' = false /\
    index_exact self'.
Proof.
  intros Hwf Hc Hi self'. rewrite <- keys_length in Hi.
  destruct (list_getitem_in_range (keys self) index Hi) as (key & Hk & Hg).
  destruct (entry_at_key self _ key Hk) as [v0 Hv].
  pose proof (build_index_entries self) as He.
  pose proof (build_index_exact self Hwf Hc) as Hex.
  assert (contains (_build_index self).1 key = true) as Hin.
  { apply contains_elem_of. unfold keys. rewrite He. by eapply list_elem_of_lookup_2. }
  assert (set_value_by_index index value self
          = __setitem__ key value (_build_index self).1) as Hset.
  { unfold set_value_by_index, bind. rewrite get_key_by_index_eq by done. by rewrite Hg. }
  subst self'. rewrite Hset. simpl. rewrite Hin, He. simpl.
  assert (OrderedDict.keys (OrderedDict.__setitem__ (entries self) key value) = keys self)
    as Hkeys.
  { rewrite OrderedDictFacts.keys_setitem. unfold contains in Hin. rewrite He in Hin.
    by rewrite Hin. }
  exists key. split_and!; try done.
  - by eapply setitem_at.
  - destruct Hex as [Hik Hki]. unfold keys in Hik, Hki. rewrite He in Hik, Hki.
    split; simpl; unfold keys; simpl; rewrite Hkeys; done.
Qed.

Lemma set_value_at_position_witness :
  exists key,
    keys sample_ab !! Z.to_nat 1 = Some key /\
    (set_value_by_index 1 one sample_ab).2 = Ok tt /\
    entries (set_value_by_index 1 one sample_ab).1
      = <[Z.to_nat 1 := (key, one)]> (entries sample_ab) /\
    keys (set_value_by_index 1 one sample_ab).1 = keys sample_ab /\
    _need_reindex (set_value_by_index 1 one sample_ab).1 = false /\
    index_exact (set_value_by_index 1 one sample_ab).1.
Proof.
  destruct key_at_witness_facts as [Hwf Hc].
  apply (set_value_at_position sample_ab 1 one Hwf Hc).
  vm_compute. split; [discriminate|reflexivity].
Defined.

(** X5: on a dictionary with a consistent cache, [pop_by_index] at a
    position in range returns the entry at that position and deletes it, the
    other entries keeping their order; the flag is set. *)
Theorem pop_at_position (self : t) (index : Z) :
  well_formed self ->
  cache_consistent self ->
  0 <= index < len self ->
  exists key v,
    entries self !! Z.to_nat index = Some (key, v) /\
    (pop_by_index index self).2 = Ok (key, v) /\
    entries (pop_by_index index self).1 = delete (Z.to_nat index) (entries self) /\
    _need_reindex (pop_by_index index self).1 = true.
Proof.
  intros Hwf Hc Hi. rewrite <- keys_length in Hi.
  destruct (list_getitem_in_range (keys self) index Hi) as (key & Hk & Hg).
  destruct (entry_at_key self _ key Hk) as [v Hv].
  pose proof (EqualsFacts.lookup_get (entries self) _ key v Hwf Hv) as Hget.
  pose proof (build_index_entries self) as He.
  exists key, v. unfold pop_by_index, bind.
  rewrite get_key_by_index_eq by done. rewrite Hg.
  unfold pop, bind, set_need_reindex, modify, super, ret, OrderedDict.pop. simpl.
  rewrite He, Hget. simpl. split_and!; try done. by eapply remove_at.
Qed.

Lemma pop_at_position_witness :
  exists key v,
    entries sample_ab !! Z.to_nat 0 = Some (key, v) /\
    (pop_by_index 0 sample_ab).2 = Ok (key, v) /\
    entries (pop_by_index 0 sample_ab).1 = delete (Z.to_nat 0) (entries sample_ab) /\
    _need_reindex (pop_by_index 0 sample_ab).1 = true.
Proof.
  destruct key_at_witness_facts as [Hwf Hc].
  apply (pop_at_position sample_ab 0 Hwf Hc). vm_compute. split; [discriminate|reflexivity].
Defined.

(** X6: on a dictionary with a consistent cache, [set_value_by_index] and
    [pop_by_index] with an index at least [n] or below [-n] raise IndexError
    and change no entry; the failed [pop_by_index] does not set the flag. *)
Theorem positional_mutators_out_of_range (self : t) (index : Z) (value : value) :
  cache_consistent self ->
  index < - len self \/ len self <= index ->
  (set_value_by_index index value self).2 = Raise IndexError /\
  entries (set_value_by_index index value self).1 = entries self /\
  (pop_by_index index self).2 = Raise IndexError /\
  entries (pop_by_index index self).1 = entries self /\
  _need_reindex (pop_by_index index self).1 = false.
Proof.
  intros Hc Hout. rewrite <- keys_length in Hout.
  apply list_getitem_out_of_range in Hout.
  unfold set_value_by_index, pop_by_index, bind.
  rewrite get_key_by_index_eq by done. rewrite Hout. simpl.
  rewrite build_index_entries, build_index_flag. done.
Qed.

Lemma positional_mutators_out_of_range_witness :
  (set_value_by_index 2 one sample_ab).2 = Raise IndexError /\
  entries (set_value_by_index 2 one sample_ab).1 = entries sample_ab /\
  (pop_by_index 2 sample_ab).2 = Raise IndexError /\
  entries (pop_by_index 2 sample_ab).1 = entries sample_ab /\
  _need_reindex (pop_by_index 2 sample_ab).1 = false.
Proof.
  destruct key_at_witness_facts as [_ Hc].
  apply (positional_mutators_out_of_range sample_ab 2 one Hc). right. vm_compute. discriminate.
Defined.

End AccessFacts.

(** ** Mutations of IndexedOrderedDict *)

Module MutationFacts.
Import IndexedOrderedDict IndexFacts AccessFacts.

Lemma keys_remove (od : OrderedDict.t) key :
  OrderedDict.keys (OrderedDict.remove od key) = filter (fun k => k <> key) (OrderedDict.keys od).
Proof.
  unfold OrderedDict.remove, OrderedDict.keys.
  induction od as [|[k v] od IH]; [done|]. rewrite fmap_cons. simpl.
  destruct (decide (k = key)) as [->|Hne].
  - rewrite !filter_cons_False by (simpl; intros H; by apply H). exact IH.
  - rewrite !filter_cons_True by done. rewrite fmap_cons. simpl. by rewrite IH.
Qed.

Lemma get_remove (od : OrderedDict.t) key k :
  OrderedDict.get (OrderedDict.remove od key) k
  = if decide (k = key) then None else OrderedDict.get od k.
Proof.
  unfold OrderedDict.remove. induction od as [|[k' v'] od IH]; simpl.
  - by destruct (decide (k = key)).
  - destruct (decide (k' = key)) as [->|Hne].
    + rewrite filter_cons_False by (simpl; intros H; by apply H). rewrite IH.
      destruct (decide (k = key)) as [->|]; done.
    + rewrite filter_cons_True by done. simpl. rewrite IH.
      destruct (decide (k = k')) as [->|]; [|done].
      destruct (decide (k' = key)); done.
Qed.

Lemma present_position (od : OrderedDict.t) key v :
  OrderedDict.get od key = Some v -> exists i : nat, od !! i = Some (key, v).
Proof. intros H. apply OrderedDictFacts.get_Some_elem in H. by apply list_elem_of_lookup in H. Qed.

Lemma length_remove (od : OrderedDict.t) key v :
  NoDup (OrderedDict.keys od) ->
  OrderedDict.get od key = Some v ->
  S (length (OrderedDict.remove od key)) = length od.
Proof.
  intros Hnd Hg. destruct (present_position od key v Hg) as [i Hi].
  rewrite (remove_at od i key v Hnd Hi). rewrite length_delete by eauto.
  pose proof (lookup_lt_Some _ _ _ Hi). lia.
Qed.

(** X7: after [self[key] = value], [self[key]] is [value], the other keys
    are bound as before, and the size has grown by one exactly when the key
    was new. *)
Theorem store_then_lookup (self : t) (key : atom) (value : value) :
  let self' := (__setitem__ key value self).1 in
  (__getitem__ key self').2 = Ok value /\
  contains self' key = true /\
  (forall k, k <> key -> (__getitem__ k self').2 = (__getitem__ k self).2 /\
                         contains self' k = contains self k) /\
  len self' = if contains self key then len self else len self + 1.
Proof.
  simpl. unfold __getitem__, read, contains, OrderedDict.contains, len. simpl. split_and!.
  - rewrite OrderedDictFacts.get_setitem. by rewrite decide_True.
  - rewrite OrderedDictFacts.get_setitem. by rewrite decide_True.
  - intros k Hk. rewrite OrderedDictFacts.get_setitem. by rewrite decide_False.
  - rewrite OrderedDictFacts.length_setitem. unfold OrderedDict.contains.
    destruct (OrderedDict.get (entries self) key); lia.
Qed.

(** X8: [del self[key]] of a present key removes that entry and no other:
    the other keys keep their order and their values, the size drops by one.
    Of an absent key it raises KeyError and leaves the entries alone.  Either
    way the flag is set. *)
Theorem delete_key (self : t) (key : atom) :
  well_formed self ->
  let self' := (__delitem__ key self).1 in
  _need_reindex self' = true /\
  (contains self key = true ->
     (__delitem__ key self).2 = Ok tt /\
     contains self' key = false /\
     keys self' = filter (fun k => k <> key) (keys self) /\
     (forall k, k <> key ->
        OrderedDict.get (entries self') k = OrderedDict.get (entries self) k) /\
     len self' = len self - 1) /\
  (contains self key = false ->
     (__delitem__ key self).2 = Raise (KeyError key) /\
     entries self' = entries self).
Proof.
  intros Hwf self'. subst self'.
  unfold __delitem__, bind, set_need_reindex, modify, super, OrderedDict.__delitem__.
  unfold contains. simpl. destruct (OrderedDict.contains (entries self) key) eqn:E; simpl.
  - split; [done|]. split; [|done]. intros _. split_and!; try done.
    + unfold OrderedDict.contains. rewrite get_remove. by rewrite decide_True.
    + unfold keys. simpl. apply keys_remove.
    + intros k Hk. rewrite get_remove. by rewrite decide_False.
    + apply OrderedDictFacts.contains_true in E as [v Hv].
      pose proof (length_remove (entries self) key v Hwf Hv). unfold len. simpl. lia.
  - split; [done|]. split; [done|]. done.
Qed.

Lemma delete_key_witness :
  (__delitem__ key_a sample_ab).2 = Ok tt /\
  keys (__delitem__ key_a sample_ab).1 = filter (fun k => k <> key_a) (keys sample_ab) /\
  (__delitem__ (AStr "z") sample_ab).2 = Raise (KeyError (AStr "z")).
Proof.
  destruct key_at_witness_facts as [Hwf _].
  destruct (delete_key sample_ab key_a Hwf) as (_ & Hp & _).
  destruct (delete_key sample_ab (AStr "z") Hwf) as (_ & _ & Ha).
  destruct (Hp eq_refl) as (H1 & _ & H2 & _). destruct (Ha eq_refl) as (H3 & _).
  done.
Defined.

(** X9: [pop(key)] of a present key returns its value and removes the entry,
    the others keeping their order; of an absent key it returns the default
    when one is given and raises KeyError otherwise, leaving the entries
    alone.  In every case the flag is set. *)
Theorem pop_key (self : t) (key : atom) (default : option value) :
  let self' := (pop key default self).1 in
  _need_reindex self' = true /\
  (forall v, OrderedDict.get (entries self) key = Some v ->
     (pop key default self).2 = Ok v /\
     contains self' key = false /\
     keys self' = filter (fun k => k <> key) (keys self) /\
     (forall k, k <> key ->
        OrderedDict.get (entries self') k = OrderedDict.get (entries self) k)) /\
  (OrderedDict.get (entries self) key = None ->
     entries self' = entries self /\
     (pop key default self).2
       = match default with Some d => Ok d | None => Raise (KeyError key) end).
Proof.
  intros self'. subst self'.
  unfold pop, bind, set_need_reindex, modify, super, OrderedDict.pop. simpl.
  destruct (OrderedDict.get (entries self) key) as [v|] eqn:E; simpl.
  - split; [done|]. split; [|done]. intros v' [= <-]. split_and!; try done.
    + unfold contains, OrderedDict.contains. simpl. rewrite get_remove. by rewrite decide_True.
    + unfold keys. simpl. apply keys_remove.
    + intros k Hk. rewrite get_remove. by rewrite decide_False.
  - destruct default; simpl; split_and!; done.
Qed.

Lemma pop_key_witness :
  (pop key_b None sample_ab).2 = Ok two /\
  (pop (AStr "z") (Some one) sample_ab).2 = Ok one /\
  (pop (AStr "z") None sample_ab).2 = Raise (KeyError (AStr "z")).
Proof.
  destruct (pop_key sample_ab key_b None) as (_ & Hp & _).
  destruct (pop_key sample_ab (AStr "z") (Some one)) as (_ & _ & Hd).
  destruct (pop_key sample_ab (AStr "z") None) as (_ & _ & Hn).
  destruct (Hp two eq_refl) as (H1 & _). destruct (Hd eq_refl) as (_ & H2).
  destruct (Hn eq_refl) as (_ & H3). done.
Defined.

Lemma popitem_eq last self :
  popitem last self
  = (mk (OrderedDict.popitem (entries self) last).1 true (_key_index self) (_index_key self),
     (OrderedDict.popitem (entries self) last).2).
Proof.
  unfold popitem, bind, set_need_reindex, modify, super. simpl.
  by destruct (OrderedDict.popitem (entries self) last).
Qed.

(** X10: [popitem] on an empty dictionary raises KeyError.  With [last] on
    it returns and removes the entry at the end of the order, with [last]
    off the one at the front; so [popitem()] right after storing a new key
    gives that key and value back and restores the entries.  The flag is set
    in every case. *)
Theorem popitem_ends (self : t) (last : bool) :
  _need_reindex (popitem last self).1 = true /\
  (entries self = [] ->
     (exists e, (popitem last self).2 = Raise e /\ Spec.classify e = Spec.KeyNotFound) /\
     entries (popitem last self).1 = []) /\
  (forall front kv, entries self = front ++ [kv] ->
     (popitem true self).2 = Ok kv /\ entries (popitem true self).1 = front) /\
  (forall kv rest, entries self = kv :: rest ->
     (popitem false self).2 = Ok kv /\ entries (popitem false self).1 = rest) /\
  (forall key value, contains self key = false ->
     (popitem true (__setitem__ key value self).1).2 = Ok (key, value) /\
     entries (popitem true (__setitem__ key value self).1).1 = entries self).
Proof.
  assert (forall (s : t) front kv, entries s = front ++ [kv] ->
            (popitem true s).2 = Ok kv /\ entries (popitem true s).1 = front) as Hlast.
  { intros s front kv He. rewrite popitem_eq. simpl. unfold OrderedDict.popitem.
    rewrite He, reverse_app. simpl. by rewrite reverse_involutive. }
  split_and!.
  - by rewrite popitem_eq.
  - intros He. rewrite popitem_eq. simpl. unfold OrderedDict.popitem. rewrite He.
    destruct last; simpl; (split; [by eexists|done]).
  - intros front kv. apply Hlast.
  - intros kv rest He. rewrite popitem_eq. simpl. unfold OrderedDict.popitem. by rewrite He.
  - intros key value Hc. apply Hlast. simpl.
    apply OrderedDictFacts.setitem_absent. by apply OrderedDictFacts.contains_false.
Qed.

Lemma popitem_ends_witness :
  (popitem true sample_ab).2 = Ok (key_b, two) /\
  (popitem false sample_ab).2 = Ok (key_a, one) /\
  entries (popitem true (__setitem__ (AStr "z") one sample_ab).1).1 = entries sample_ab /\
  entries (popitem true (__init__ [])).1 = [].
Proof.
  destruct (popitem_ends sample_ab true) as (_ & _ & Hl & _ & Hs).
  destruct (popitem_ends sample_ab false) as (_ & _ & _ & Hf & _).
  destruct (popitem_ends (__init__ []) true) as (_ & He & _).
  destruct (Hl [(key_a, one)] (key_b, two) eq_refl) as [H1 _].
  destruct (Hf (key_a, one) [(key_b, two)] eq_refl) as [H2 _].
  destruct (Hs (AStr "z") one eq_refl) as [_ H3].
  destruct (He eq_refl) as [_ H4]. done.
Defined.

Lemma remove_permutation (od : OrderedDict.t) key v :
  NoDup (OrderedDict.keys od) ->
  OrderedDict.get od key = Some v ->
  od ≡ₚ (key, v) :: OrderedDict.remove od key.
Proof.
  intros Hnd Hg. destruct (present_position od key v Hg) as [i Hi].
  rewrite (remove_at od i key v Hnd Hi). by apply delete_Permutation.
Qed.

Lemma move_to_end_eq key last self :
  move_to_end key last self
  = (mk (OrderedDict.move_to_end (entries self) key last).1 true
        (_key_index self) (_index_key self),
     (OrderedDict.move_to_end (entries self) key last).2).
Proof.
  unfold move_to_end, bind, set_need_reindex, modify, super. simpl.
  by destruct (OrderedDict.move_to_end (entries self) key last).
Qed.

Lemma get_app_single (od : OrderedDict.t) key v k :
  OrderedDict.get (od ++ [(key, v)]) k
  = match OrderedDict.get od k with
    | Some x => Some x
    | None => if decide (k = key) then Some v else None
    end.
Proof.
  induction od as [|[k' v'] od IH]; simpl; [done|].
  destruct (decide (k = k')); done.
Qed.

(** X11: [move_to_end(key)] of a present key moves its entry to the end of
    the order (to the front when [last] is off) and changes nothing else:
    the entries are a permutation of the old ones, every key is bound to the
    value it had, and the other keys keep their relative order.  Of an absent
    key it raises KeyError and leaves the entries alone.  The flag is set
    either way. *)
Theorem move_key_to_end (self : t) (key : atom) (last : bool) :
  well_formed self ->
  let self' := (move_to_end key last self).1 in
  _need_reindex self' = true /\
  (forall v, OrderedDict.get (entries self) key = Some v ->
     (move_to_end key last self).2 = Ok tt /\
     entries self' ≡ₚ entries self /\
     keys self' = (if last then filter (fun k => k <> key) (keys self) ++ [key]
                   else key :: filter (fun k => k <> key) (keys self)) /\
     (forall k, OrderedDict.get (entries self') k = OrderedDict.get (entries self) k)) /\
  (OrderedDict.get (entries self) key = None ->
     (move_to_end key last self).2 = Raise (KeyError key) /\
     entries self' = entries self).
Proof.
  intros Hwf self'. subst self'. rewrite move_to_end_eq. simpl.
  unfold OrderedDict.move_to_end.
  destruct (OrderedDict.get (entries self) key) as [v|] eqn:E.
  - split; [by destruct last|]. split; [|done]. intros v' [= <-].
    pose proof (remove_permutation (entries self) key v Hwf E) as Hperm.
    destruct last; simpl; split_and!; try done.
    + symmetry. etrans; [exact Hperm|]. apply Permutation_cons_append.
    + unfold keys, OrderedDict.keys. simpl. rewrite fmap_app. simpl.
      f_equal. apply keys_remove.
    + intros k. rewrite get_app_single, get_remove.
      destruct (decide (k = key)) as [->|]; [done|].
      by destruct (OrderedDict.get (entries self) k).
    + unfold keys, OrderedDict.keys. simpl. f_equal. apply keys_remove.
    + intros k. cbn [OrderedDict.get]. rewrite get_remove.
      destruct (decide (k = key)) as [->|]; done.
  - simpl. split; [done|]. split; [done|]. done.
Qed.

Lemma move_key_to_end_witness :
  keys (move_to_end key_a true sample_ab).1 = [key_b; key_a] /\
  (move_to_end (AStr "z") true sample_ab).2 = Raise (KeyError (AStr "z")).
Proof.
  destruct key_at_witness_facts as [Hwf _].
  destruct (move_key_to_end sample_ab key_a true Hwf) as (_ & Hp & _).
  destruct (move_key_to_end sample_ab (AStr "z") true Hwf) as (_ & _ & Ha).
  destruct (Hp one eq_refl) as (_ & _ & H1 & _). destruct (Ha eq_refl) as (H2 & _).
  split; [exact H1|exact H2].
Defined.

(** X12: after [clear()] the dictionary is empty: no key is present, every
    positional access - whatever the index - raises IndexError,
    [index_of_key] raises KeyError and [popitem] raises KeyError. *)
Theorem clear_empties (self : t) :
  let self' := (clear self).1 in
  (clear self).2 = Ok tt /\
  entries self' = [] /\
  _need_reindex self' = true /\
  (forall key, contains self' key = false /\
               (index_of_key key self').2 = Raise (KeyError key)) /\
  (forall index, (get_key_by_index index self').2 = Raise IndexError /\
                 (get_value_by_index index self').2 = Raise IndexError /\
                 (get_item_by_index index self').2 = Raise IndexError /\
                 (pop_by_index index self').2 = Raise IndexError) /\
  (forall last, exists e, (popitem last self').2 = Raise e /\
                          Spec.classify e = Spec.KeyNotFound).
Proof.
  simpl. split_and!; try done.
  - intros index. unfold get_value_by_index, get_item_by_index, pop_by_index, bind.
    assert (forall s, entries s = [] -> _need_reindex s = true ->
              (get_key_by_index index s).2 = Raise IndexError) as H.
    { intros s He Hf. rewrite get_key_by_index_eq by (by apply stale_consistent).
      simpl. unfold keys. rewrite He. apply list_getitem_out_of_range. simpl. lia. }
    set (s := mk [] true (_key_index self) (_index_key self)).
    pose proof (H s eq_refl eq_refl) as Hs.
    destruct (get_key_by_index index s) as [s1 [k|e]]; simpl in *; [done|].
    injection Hs as ->. split; [|done].
    apply list_getitem_out_of_range. simpl. lia.
  - intros last. by destruct last; eexists.
Qed.

End MutationFacts.

(** ** Equality as a relation, and the cache along a run *)

Module RelationFacts.
Import IndexedOrderedDict IndexFacts AccessFacts EqualsFacts.

Lemma eqb_refl h v : eqb h v v = true.
Proof.
  destruct v as [a|l]; simpl; [by apply bool_decide_eq_true|].
  by rewrite (bool_decide_eq_true_2 (l = l)).
Qed.

Lemma eqb_sym h x y : eqb h x y = eqb h y x.
Proof.
  destruct x as [a|l], y as [b|l']; simpl; try done.
  - apply bool_decide_ext. split; congruence.
  - f_equal; [apply bool_decide_ext; split; congruence|].
    destruct (h !! l), (h !! l'); try done. apply bool_decide_ext. split; congruence.
Qed.

Lemma same_pairs_refl h od : same_pairs_in_order h od od.
Proof. unfold same_pairs_in_order. apply Forall2_same_length_lookup. split; [done|].
  intros i x y Hx Hy. rewrite Hx in Hy. injection Hy as <-. split; [done|apply eqb_refl].
Qed.

Lemma same_pairs_sym h a b : same_pairs_in_order h a b -> same_pairs_in_order h b a.
Proof.
  unfold same_pairs_in_order. intros H. apply Forall2_flip.
  eapply Forall2_impl; [exact H|]. intros x y [Hk Hv]. split; [done|]. by rewrite eqb_sym.
Qed.

Lemma same_relation_sym h a b : same_relation h a b -> same_relation h b a.
Proof.
  intros H key. specialize (H key).
  destruct (OrderedDict.get a key), (OrderedDict.get b key); try done. by rewrite eqb_sym.
Qed.

(** The other object as the dictionary [equals] compares with, when it is a
    dictionary with unique keys or a sequence of pairs. *)
Lemma equals_ordered_eq h self other :
  wf_source other ->
  equals h self other true
  = OrderedDict.od_eq h (entries self) (OrderedDict.of_pairs (to_kv_iterable other)).
Proof.
  intros Hs. unfold equals, __eq__. destruct other; simpl in *; try done.
  by rewrite OrderedDictFacts.of_pairs_entries.
Qed.

Lemma equals_unordered_eq h self other :
  wf_source other ->
  equals h self other false
  = OrderedDict.dict_eq h (entries self) (OrderedDict.of_pairs (to_kv_iterable other)).
Proof.
  intros Hs. unfold equals, __eq__. destruct other; simpl in *; try done.
  by rewrite OrderedDictFacts.of_pairs_entries.
Qed.

(** X13: a dictionary equals itself, and equals its copy, with and without
    order. *)
Theorem equals_itself_and_its_copy (h : heap) (self : t) (with_order : bool) :
  well_formed self ->
  equals h self (SOrderedDict (entries self)) with_order = true /\
  equals h self (SOrderedDict (entries (copy self).2)) with_order = true /\
  equals h (copy self).2 (SOrderedDict (entries self)) with_order = true.
Proof.
  intros Hwf. rewrite copy_same by done.
  assert (equals h self (SOrderedDict (entries self)) with_order = true) as H; [|done].
  destruct with_order.
  - rewrite equals_ordered_eq by done. simpl.
    rewrite OrderedDictFacts.of_pairs_entries by done.
    apply od_eq_spec; [done..|]. apply same_pairs_refl.
  - rewrite equals_unordered_eq by done. simpl.
    rewrite OrderedDictFacts.of_pairs_entries by done.
    apply dict_eq_spec; [done..|]. intros key.
    destruct (OrderedDict.get (entries self) key); [apply eqb_refl|done].
Qed.

Lemma equals_itself_and_its_copy_witness :
  equals [] (copy sample_ab).2 (SOrderedDict (entries sample_ab)) true = true.
Proof.
  destruct key_at_witness_facts as [Hwf _].
  apply (equals_itself_and_its_copy [] sample_ab true Hwf).
Defined.

(** X14: equality with order implies equality without order. *)
Theorem ordered_equality_implies_unordered (h : heap) (self : t) (other : source) :
  wf_source other ->
  equals h self other true = true ->
  equals h self other false = true.
Proof.
  intros Hs. rewrite equals_ordered_eq, equals_unordered_eq by done.
  unfold OrderedDict.od_eq. intros H. by apply andb_prop in H as [H _].
Qed.

Lemma ordered_equality_implies_unordered_witness :
  equals [] sample_ab (SPairs [(key_a, one); (key_b, two); (key_a, one)]) false = true.
Proof.
  apply (ordered_equality_implies_unordered [] sample_ab
           (SPairs [(key_a, one); (key_b, two); (key_a, one)]) I).
  reflexivity.
Defined.

(** X15: equality is symmetric: comparing [a] with [b] gives what comparing
    [b] with [a] gives, in either mode. *)
Theorem equals_symmetric (h : heap) (a b : t) (with_order : bool) :
  well_formed a ->
  well_formed b ->
  equals h a (SOrderedDict (entries b)) with_order
  = equals h b (SOrderedDict (entries a)) with_order.
Proof.
  intros Ha Hb.
  assert (forall x y : bool, (x = true <-> y = true) -> x = y) as Hiff.
  { intros [] [] [H1 H2]; try done; [symmetry; by apply H1|by apply H2]. }
  apply Hiff. destruct with_order.
  - rewrite !equals_ordered_eq by done. simpl.
    rewrite !OrderedDictFacts.of_pairs_entries by done.
    rewrite !od_eq_spec by done. split; apply same_pairs_sym.
  - rewrite !equals_unordered_eq by done. simpl.
    rewrite !OrderedDictFacts.of_pairs_entries by done.
    rewrite !dict_eq_spec by done. split; apply same_relation_sym.
Qed.

Lemma equals_symmetric_witness :
  equals [] sample_ab (SOrderedDict (entries sample_ba)) true
  = equals [] sample_ba (SOrderedDict (entries sample_ab)) true.
Proof.
  apply (equals_symmetric [] sample_ab sample_ba true).
  - apply key_at_witness_facts.
  - apply (bool_decide_unpack _). reflexivity.
Defined.

(** X16: along any run of operations from a new dictionary in which no
    store hits a present key while the flag is set, the keys stay unique and
    the cache stays consistent: whenever the flag is clear, [_index_key] is
    the key order and [_key_index] its inverse. *)
Theorem cache_consistent_along_sound_runs (self : t) :
  sound_run self ->
  well_formed self /\
  (_need_reindex self = false ->
   _index_key self = keys self /\
   forall key i, _key_index self !! key = Some i <->
                 0 <= i /\ keys self !! Z.to_nat i = Some key).
Proof. intros H. by apply sound_run_consistent. Qed.

Lemma cache_consistent_along_sound_runs_witness :
  let self := step (Setitem key_a two) (step (GetKeyByIndex 0) sample_ab) in
  well_formed self /\
  (_need_reindex self = false ->
   _index_key self = keys self /\
   forall key i, _key_index self !! key = Some i <->
                 0 <= i /\ keys self !! Z.to_nat i = Some key).
Proof.
  apply cache_consistent_along_sound_runs.
  apply sound_step; [apply sound_step; [apply sound_init|exact I]|]. left. reflexivity.
Defined.

End RelationFacts.

(** ** ParamDict: what update keeps *)

Module MergeFacts.
Import IndexedOrderedDict ParamDict IndexFacts UpdateFacts.

Lemma update_loop_reject_eq k v rest on_dup deep s :
  is_str k = false ->
  (on_dup =? OVERWRITE) || negb (contains s.2 k) = true ->
  update_loop ((k, v) :: rest) on_dup deep s
  = (((if deep then (deepcopy s.1 v).1 else s.1), s.2), Raise AssertionError).
Proof.
  intros Hk Hc. destruct s as [h self]. simpl in Hc.
  cbn [update_loop]. unfold bind at 1. unfold read at 1. cbn [snd]. rewrite Hc.
  unfold ParamDict.__setitem__, assert_, lift, bind, copy_deepcopy, ret, raise.
  rewrite Hk. destruct deep; simpl; [destruct (deepcopy h v)|]; done.
Qed.

Lemma update_loop_reject k v rest on_dup deep s :
  is_str k = false ->
  (on_dup =? OVERWRITE) || negb (contains s.2 k) = true ->
  (update_loop ((k, v) :: rest) on_dup deep s).1.2 = s.2 /\
  (update_loop ((k, v) :: rest) on_dup deep s).2 = Raise AssertionError.
Proof. intros Hk Hc. by rewrite update_loop_reject_eq. Qed.

Lemma entries_set_pair deep s kv :
  (set_pair deep s kv).2
  = (IndexedOrderedDict.__setitem__ kv.1 (if deep then (deepcopy s.1 kv.2).2 else kv.2) s.2).1.
Proof. unfold set_pair. destruct deep; [destruct (deepcopy s.1 kv.2)|]; done. Qed.

(** What every store of [update] keeps, [update] keeps, whatever its
    outcome. *)
Lemma update_loop_preserves (P : IndexedOrderedDict.t -> Prop) (on_dup : Z) :
  (forall d k v, is_str k = true ->
     on_dup = OVERWRITE \/ contains d k = false ->
     P d -> P (IndexedOrderedDict.__setitem__ k v d).1) ->
  forall pairs deep s, P s.2 -> P (update_loop pairs on_dup deep s).1.2.
Proof.
  intros Hstep pairs deep. induction pairs as [|[k v] pairs IH]; intros s HP; [done|].
  destruct ((on_dup =? OVERWRITE) || negb (contains s.2 k)) eqn:Hc.
  - destruct (is_str k) eqn:Hk.
    + rewrite update_loop_set by done. apply IH. rewrite entries_set_pair.
      apply Hstep; [done| |done]. apply orb_true_iff in Hc as [Hc|Hc].
      * left. by apply Z.eqb_eq.
      * right. by apply negb_true_iff.
    + by destruct (update_loop_reject k v pairs on_dup deep s Hk Hc) as [-> _].
  - apply orb_false_iff in Hc as [Ho Hc]. apply negb_false_iff in Hc.
    apply Z.eqb_neq in Ho. rewrite update_loop_present by done.
    destruct (on_dup =? THROW); [done|]. destruct (on_dup =? IGNORE); [by apply IH|done].
Qed.

Lemma string_keys_setitem (od : OrderedDict.t) k v :
  is_str k = true -> string_keys od -> string_keys (OrderedDict.__setitem__ od k v).
Proof.
  intros Hk. unfold string_keys. induction od as [|[k' v'] od IH]; intros H; simpl.
  - by constructor.
  - apply Forall_cons in H as [Hk' H]. destruct (decide (k = k')); constructor; auto.
Qed.

(** X17: a ParamDict never holds a key that is not a string, and never holds
    a key twice: [update] keeps both facts for every source, every policy
    value and every outcome, also when it raises; so does the constructor. *)
Theorem update_keeps_string_keys (other : source) (on_dup : Z) (deep : bool) (s : state) :
  string_keys (entries s.2) ->
  well_formed s.2 ->
  string_keys (entries (update other on_dup deep s).1.2) /\
  well_formed (update other on_dup deep s).1.2 /\
  (forall data h, string_keys (entries (ParamDict.__init__ data deep h).1.2) /\
                  well_formed (ParamDict.__init__ data deep h).1.2).
Proof.
  assert (forall pairs od s, string_keys (entries s.2) /\ well_formed s.2 ->
            string_keys (entries (update_loop pairs od deep s).1.2) /\
            well_formed (update_loop pairs od deep s).1.2) as H.
  { intros pairs od s0 H0.
    apply (update_loop_preserves (fun d => string_keys (entries d) /\ well_formed d)); [|done].
    intros d k v Hk _ [Hs Hw]. split.
    - by apply string_keys_setitem.
    - unfold well_formed, keys. simpl. by apply OrderedDictFacts.NoDup_setitem. }
  intros Hs Hw. split_and!.
  - by apply H.
  - by apply H.
  - intros data h. apply H. split; [constructor|apply NoDup_nil_2].
Qed.

Lemma update_keeps_string_keys_witness :
  string_keys (entries (update (SPairs [(key_b, one); (AInt 3, one)]) 7 true
                          ([], sample_ab)).1.2).
Proof.
  apply (update_keeps_string_keys (SPairs [(key_b, one); (AInt 3, one)]) 7 true ([], sample_ab)).
  - repeat constructor.
  - apply AccessFacts.key_at_witness_facts.
Defined.

(** X18: [update] never removes or moves a key: for every source, policy
    value and outcome the old key order is a prefix of the new one.  With a
    policy other than OVERWRITE it changes no existing binding either. *)
Theorem update_keeps_old_keys (other : source) (on_dup : Z) (deep : bool) (s : state) :
  keys s.2 `prefix_of` keys (update other on_dup deep s).1.2 /\
  (on_dup <> OVERWRITE ->
   forall k v, OrderedDict.get (entries s.2) k = Some v ->
     OrderedDict.get (entries (update other on_dup deep s).1.2) k = Some v).
Proof.
  unfold update. split.
  - apply (update_loop_preserves (fun d => keys s.2 `prefix_of` keys d)); [|done].
    intros d k v _ _ Hp. unfold keys at 2. simpl. rewrite OrderedDictFacts.keys_setitem.
    destruct (OrderedDict.contains (entries d) k); [done|]. by apply prefix_app_r.
  - intros Ho k v Hg.
    apply (update_loop_preserves
             (fun d => OrderedDict.get (entries d) k = Some v)); [|done].
    intros d k' v' _ [Heq|Hc] Hd; [done|]. simpl.
    rewrite OrderedDictFacts.get_setitem. rewrite decide_False; [done|].
    intros ->. apply OrderedDictFacts.contains_false in Hc. congruence.
Qed.

Lemma update_keeps_old_keys_witness :
  OrderedDict.get
    (entries (update (SPairs [(key_b, nine); (key_c, three)]) IGNORE true
                ([], sample_ab)).1.2) key_b = Some two.
Proof.
  destruct (update_keeps_old_keys (SPairs [(key_b, nine); (key_c, three)]) IGNORE true
              ([], sample_ab)) as [_ H].
  apply H; [discriminate|reflexivity].
Defined.

Lemma update_all_new pairs on_dup deep : forall s,
  string_keys pairs ->
  NoDup pairs.*1 ->
  (forall key, key ∈ pairs.*1 -> key ∉ keys s.2) ->
  update_loop pairs on_dup deep s = (foldl (set_pair deep) s pairs, Ok tt).
Proof.
  induction pairs as [|[k v] pairs IH]; intros s Hs Hnd Hnew; [done|].
  apply string_keys_cons in Hs as [Hk Hs].
  change (NoDup (k :: pairs.*1)) in Hnd. apply NoDup_cons in Hnd as [Hkp Hnd].
  assert (contains s.2 k = false) as Hc.
  { destruct (contains s.2 k) eqn:E; [|done]. apply contains_elem_of in E.
    exfalso. apply (Hnew k); [apply list_elem_of_here|done]. }
  rewrite update_loop_set by (rewrite ?Hc, ?orb_true_r; done). cbn [foldl].
  apply IH; [done..|].
  intros key Hin. rewrite keys_set_pair. cbn [fst]. rewrite Hc.
  rewrite elem_of_app, list_elem_of_singleton. intros [Hold| ->].
  - apply (Hnew key); [by apply list_elem_of_further|done].
  - done.
Qed.

(** X19: with a policy value that is none of OVERWRITE, THROW and IGNORE,
    [update] stores the pairs as long as their keys are new and raises
    ValueError at the first pair whose key is already there, in the
    dictionary or among the earlier pairs of the call, these having been
    stored; when all keys are new and distinct it returns without raising. *)
Theorem update_unsupported_policy (other : source) (on_dup : Z) (deep : bool) (s : state) :
  on_dup <> OVERWRITE -> on_dup <> THROW -> on_dup <> IGNORE ->
  let pairs := to_kv_iterable other in
  (string_keys pairs ->
   NoDup pairs.*1 ->
   (forall key, key ∈ pairs.*1 -> key ∉ keys s.2) ->
   update other on_dup deep s = (foldl (set_pair deep) s pairs, Ok tt)) /\
  (forall pre k v post,
     pairs = pre ++ (k, v) :: post ->
     string_keys pre ->
     NoDup pre.*1 ->
     (forall key, key ∈ pre.*1 -> key ∉ keys s.2) ->
     k ∈ keys s.2 \/ k ∈ pre.*1 ->
     update other on_dup deep s
     = (foldl (set_pair deep) s pre, Raise (ValueError_not_supported on_dup))).
Proof.
  intros Ho Ht Hi pairs. unfold update. fold pairs. split.
  - intros Hs Hnd Hnew. by apply update_all_new.
  - intros pre k v post -> Hs Hnd Hnew Hk.
    revert s Hnew Hk. induction pre as [|[k0 v0] pre IH]; intros s Hnew Hk.
    + destruct Hk as [Hk|Hk]; [|by apply elem_of_nil in Hk].
      apply contains_elem_of in Hk. simpl app. rewrite update_loop_present by done.
      apply Z.eqb_neq in Ht, Hi. by rewrite Ht, Hi.
    + apply string_keys_cons in Hs as [Hk0 Hs].
      change (NoDup (k0 :: pre.*1)) in Hnd. apply NoDup_cons in Hnd as [Hkp Hnd].
      assert (contains s.2 k0 = false) as Hc.
      { destruct (contains s.2 k0) eqn:E; [|done]. apply contains_elem_of in E.
        exfalso. apply (Hnew k0); [apply list_elem_of_here|done]. }
      change (((k0, v0) :: pre) ++ (k, v) :: post) with ((k0, v0) :: (pre ++ (k, v) :: post)).
      rewrite update_loop_set by (rewrite ?Hc, ?orb_true_r; done). cbn [foldl].
      apply IH; [done..| |].
      * intros key Hin. rewrite keys_set_pair. cbn [fst]. rewrite Hc.
        rewrite elem_of_app, list_elem_of_singleton. intros [Hold| ->].
        -- apply (Hnew key); [by apply list_elem_of_further|done].
        -- done.
      * rewrite keys_set_pair. cbn [fst]. rewrite Hc.
        rewrite elem_of_app, list_elem_of_singleton.
        destruct Hk as [Hk|Hk]; [by left; left|].
        change (k ∈ k0 :: pre.*1) in Hk. apply elem_of_cons in Hk as [->|Hk]; auto.
Qed.

Lemma update_unsupported_policy_witness :
  update (SPairs [(key_c, three); (key_b, nine)]) 7 false ([], sample_ab)
  = (([], mk [(key_a, one); (key_b, two); (key_c, three)] true ∅ []),
     Raise (ValueError_not_supported 7)) /\
  (update (SPairs [(key_c, three)]) 7 false ([], sample_ab)).2 = Ok tt.
Proof.
  destruct (update_unsupported_policy (SPairs [(key_c, three); (key_b, nine)]) 7 false
              ([], sample_ab)) as [_ H]; [done..|].
  destruct (update_unsupported_policy (SPairs [(key_c, three)]) 7 false
              ([], sample_ab)) as [H' _]; [done..|].
  split.
  - rewrite (H [(key_c, three)] key_b nine []); [reflexivity|reflexivity|repeat constructor| | |].
    + apply NoDup_singleton.
    + intros key Hin. apply list_elem_of_singleton in Hin as ->.
      intros Hin. apply contains_elem_of in Hin. discriminate Hin.
    + left. by apply contains_elem_of.
  - rewrite H'; [reflexivity|repeat constructor| |].
    + apply NoDup_singleton.
    + intros key Hin. apply list_elem_of_singleton in Hin as ->.
      intros Hin. apply contains_elem_of in Hin. discriminate Hin.
Defined.

Lemma get_app (a b : OrderedDict.t) k :
  OrderedDict.get (a ++ b) k
  = match OrderedDict.get a k with Some x => Some x | None => OrderedDict.get b k end.
Proof. induction a as [|[k' v'] a IH]; simpl; [done|]. by destruct (decide (k = k')). Qed.

Lemma foldl_set_pair_shallow pairs : forall (s : state) k,
  (foldl (set_pair false) s pairs).1 = s.1 /\
  OrderedDict.get (entries (foldl (set_pair false) s pairs).2) k
  = match OrderedDict.get (reverse pairs) k with
    | Some v => Some v
    | None => OrderedDict.get (entries s.2) k
    end.
Proof.
  induction pairs as [|[k' v'] pairs IH]; intros s k; [done|].
  cbn [foldl]. destruct (IH (set_pair false s (k', v')) k) as [Hh Hg].
  split; [by rewrite Hh|]. rewrite Hg, reverse_cons, get_app. simpl.
  destruct (OrderedDict.get (reverse pairs) k); [done|].
  rewrite OrderedDictFacts.get_setitem. by destruct (decide (k = k')).
Qed.

(** X20: after [update] with OVERWRITE and without deep copies, a key is
    bound to the value of the last pair of the source that names it, and to
    its old value when no pair does; the store is untouched. *)
Theorem update_overwrite_last_wins (other : source) (s : state) (k : atom) :
  string_keys (to_kv_iterable other) ->
  let s' := (update other OVERWRITE false s).1 in
  (update other OVERWRITE false s).2 = Ok tt /\
  s'.1 = s.1 /\
  OrderedDict.get (entries s'.2) k
  = match OrderedDict.get (reverse (to_kv_iterable other)) k with
    | Some v => Some v
    | None => OrderedDict.get (entries s.2) k
    end.
Proof.
  intros Hs. simpl. unfold update. rewrite update_overwrite by done. simpl.
  split; [done|]. apply foldl_set_pair_shallow.
Qed.

Lemma update_overwrite_last_wins_witness :
  OrderedDict.get
    (entries (update (SPairs [(key_b, nine); (key_b, three)]) OVERWRITE false
                ([], sample_ab)).1.2) key_b = Some three.
Proof.
  apply (update_overwrite_last_wins (SPairs [(key_b, nine); (key_b, three)])
           ([], sample_ab) key_b).
  repeat constructor.
Defined.

Lemma contains_by_keys (a b : OrderedDict.t) k :
  OrderedDict.keys a = OrderedDict.keys b ->
  OrderedDict.contains a k = OrderedDict.contains b k.
Proof.
  intros Hk. destruct (OrderedDict.contains a k) eqn:Ea, (OrderedDict.contains b k) eqn:Eb;
    try done.
  - apply OrderedDictFacts.contains_true, EqualsFacts.get_is_Some in Ea.
    apply OrderedDictFacts.contains_false, OrderedDictFacts.get_None in Eb. congruence.
  - apply OrderedDictFacts.contains_true, EqualsFacts.get_is_Some in Eb.
    apply OrderedDictFacts.contains_false, OrderedDictFacts.get_None in Ea. congruence.
Qed.

Lemma keys_foldl_set_pair deep pairs : forall (s : state) (od : OrderedDict.t),
  keys s.2 = OrderedDict.keys od ->
  keys (foldl (set_pair deep) s pairs).2
  = OrderedDict.keys (foldl (fun od kv => OrderedDict.__setitem__ od kv.1 kv.2) od pairs).
Proof.
  induction pairs as [|[k v] pairs IH]; intros s od Hk; [done|].
  cbn [foldl]. apply IH. rewrite keys_set_pair, OrderedDictFacts.keys_setitem. cbn [fst].
  unfold contains. rewrite (contains_by_keys (entries s.2) od k Hk). by rewrite Hk.
Qed.

Lemma entries_foldl_set_pair_shallow pairs : forall (s : state),
  entries (foldl (set_pair false) s pairs).2
  = foldl (fun od kv => OrderedDict.__setitem__ od kv.1 kv.2) (entries s.2) pairs.
Proof. induction pairs as [|[k v] pairs IH]; intros s; [done|]. cbn [foldl]. by rewrite IH. Qed.

(** A list value is an object made after the store had the size [n]. *)
Definition made_after (n : nat) (h : heap) (kv : atom * value) : Prop :=
  match kv.2 with
  | VList l => (n <= l)%nat /\ is_Some (h !! l)
  | VAtom _ => True
  end.

Lemma made_after_mono n h h' kv : h `prefix_of` h' -> made_after n h kv -> made_after n h' kv.
Proof.
  intros Hp. unfold made_after. destruct kv.2 as [a|l]; [done|].
  intros [Hn [o Ho]]. split; [done|]. exists o. by eapply prefix_lookup_Some.
Qed.

Lemma Forall_setitem (Q : atom * value -> Prop) (od : OrderedDict.t) k v :
  (forall k', Q (k', v)) -> Forall Q od -> Forall Q (OrderedDict.__setitem__ od k v).
Proof.
  intros Hv. induction od as [|[k' v'] od IH]; intros H; simpl.
  - by constructor.
  - apply Forall_cons in H as [Hq H]. destruct (decide (k = k')); constructor; auto.
Qed.

Lemma foldl_set_pair_fresh n pairs : forall (s : state),
  (n <= length s.1)%nat ->
  Forall (fun kv => is_Some (JsonFacts.content s.1 kv.2)) pairs ->
  Forall (made_after n s.1) (entries s.2) ->
  let s' := foldl (set_pair true) s pairs in
  s.1 `prefix_of` s'.1 /\ Forall (made_after n s'.1) (entries s'.2).
Proof.
  induction pairs as [|[k v] pairs IH]; intros s Hn Hv Hf; [done|].
  apply Forall_cons in Hv as [[x Hx] Hv]. cbn [foldl]. simpl in Hx.
  destruct (JsonFacts.deepcopy_content s.1 v x Hx) as [Hp Hc].
  set (s1 := set_pair true s (k, v)).
  assert (s1.1 = (deepcopy s.1 v).1) as Hh.
  { unfold s1, set_pair. simpl. by destruct (deepcopy s.1 v). }
  rewrite <- Hh in Hp.
  assert (Forall (made_after n s1.1) (entries s1.2)) as Hf1.
  { unfold s1. rewrite entries_set_pair. simpl. apply Forall_setitem.
    - intros k'. unfold made_after. simpl. fold s1. rewrite Hh.
      destruct v as [a|l]; simpl in *; [done|].
      destruct (s.1 !! l) as [o|] eqn:E; [|done]. simpl. split; [lia|].
      rewrite lookup_app_r by lia. rewrite Nat.sub_diag. by eexists.
    - eapply Forall_impl; [exact Hf|]. intros kv. by apply made_after_mono. }
  destruct (IH s1) as [Hp' Hf']; [| |done|].
  - apply prefix_length in Hp. lia.
  - eapply Forall_impl; [exact Hv|]. intros kv [y Hy]. exists y.
    by eapply JsonFacts.content_prefix.
  - split; [by etrans|done].
Qed.

(** X21: the constructor stores, for a source of pairs with string keys,
    the keys in the order of their first appearance.  Without deep copies
    the values are the objects of the source and the store is untouched;
    with deep copies every list it holds is an object made by the call, not
    one of the source. *)
Theorem constructor_shares_or_copies (pairs : list (atom * value)) (h : heap) :
  string_keys pairs ->
  (ParamDict.__init__ (SPairs pairs) false h).2 = Ok tt /\
  (ParamDict.__init__ (SPairs pairs) false h).1.1 = h /\
  entries (ParamDict.__init__ (SPairs pairs) false h).1.2 = OrderedDict.of_pairs pairs /\
  (Forall (fun kv => is_Some (JsonFacts.content h kv.2)) pairs ->
   let s' := (ParamDict.__init__ (SPairs pairs) true h).1 in
   (ParamDict.__init__ (SPairs pairs) true h).2 = Ok tt /\
   h `prefix_of` s'.1 /\
   keys s'.2 = OrderedDict.keys (OrderedDict.of_pairs pairs) /\
   Forall (made_after (length h) s'.1) (entries s'.2)).
Proof.
  intros Hs. unfold ParamDict.__init__, update. simpl to_kv_iterable.
  rewrite !update_overwrite by done. simpl. split_and!; try done.
  - by destruct (foldl_set_pair_shallow pairs (h, IndexedOrderedDict.__init__ []) ANone).
  - by rewrite entries_foldl_set_pair_shallow.
  - intros Hv. destruct (foldl_set_pair_fresh (length h) pairs
                           (h, IndexedOrderedDict.__init__ [])) as [Hp Hf]; try done.
    split_and!; try done. by apply keys_foldl_set_pair.
Qed.

Lemma constructor_shares_or_copies_witness :
  entries (ParamDict.__init__ (SPairs [(key_a, VList 0%nat)]) false [[AInt 1]]).1.2
    = [(key_a, VList 0%nat)] /\
  Forall (made_after 1 (ParamDict.__init__ (SPairs [(key_a, VList 0%nat)]) true [[AInt 1]]).1.1)
         (entries (ParamDict.__init__ (SPairs [(key_a, VList 0%nat)]) true [[AInt 1]]).1.2).
Proof.
  destruct (constructor_shares_or_copies [(key_a, VList 0%nat)] [[AInt 1]])
    as (_ & _ & H1 & H2); [repeat constructor|].
  split; [exact H1|]. apply H2. repeat constructor. by eexists.
Defined.

(** X22: [get_or_none] and [get_or_throw] give, for a key that is present,
    what [as_type] gives for the stored value and the expected type; for an
    absent key the first returns None and the second raises KeyError.  With
    a default other than None, [get] is [get_or_throw] with the type of the
    default on a present key.  None of them changes the dictionary or the
    store. *)
Theorem typed_getters (as_type : heap -> value -> pytype -> result value)
    (s : state) (key : atom) (expected_type : pytype) :
  (forall v, OrderedDict.get (entries s.2) key = Some v ->
     get_or_none as_type key expected_type s = (s, as_type s.1 v expected_type) /\
     get_or_throw as_type key expected_type s = (s, as_type s.1 v expected_type) /\
     (forall default, default <> VAtom ANone ->
        get as_type key default s = get_or_throw as_type key (type default) s)) /\
  (OrderedDict.get (entries s.2) key = None ->
     get_or_none as_type key expected_type s = (s, Ok (VAtom ANone)) /\
     get_or_throw as_type key expected_type s = (s, Raise (KeyError key)) /\
     Spec.classify (KeyError key) = Spec.KeyNotFound).
Proof.
  destruct s as [h self]. simpl.
  unfold get_or_none, get_or_throw, _get_or, get, bind, read, lift, ret, raise.
  unfold __getitem__, read, contains, OrderedDict.contains. simpl. split.
  - intros v Hv. rewrite Hv. simpl. rewrite Hv. simpl. split_and!; try done.
    intros default Hd. destruct default as [[| |]|]; try done; simpl; by rewrite Hv.
  - intros Hv. by rewrite Hv.
Qed.

Lemma typed_getters_witness :
  get_or_throw ParamFacts.sample_as_type (AStr "x") int ParamFacts.sample_x5
    = (ParamFacts.sample_x5, Ok (VAtom (AInt 5))) /\
  get_or_none ParamFacts.sample_as_type (AStr "y") int ParamFacts.sample_x5
    = (ParamFacts.sample_x5, Ok (VAtom ANone)) /\
  get_or_throw ParamFacts.sample_as_type (AStr "y") int ParamFacts.sample_x5
    = (ParamFacts.sample_x5, Raise (KeyError (AStr "y"))).
Proof.
  destruct (typed_getters ParamFacts.sample_as_type ParamFacts.sample_x5 (AStr "x") int)
    as [Hp _].
  destruct (typed_getters ParamFacts.sample_as_type ParamFacts.sample_x5 (AStr "y") int)
    as [_ Ha].
  destruct (Hp (VAtom (AStr "5")) eq_refl) as (_ & H1 & _).
  destruct (Ha eq_refl) as (H2 & H3 & _).
  split_and!; [exact H1|exact H2|exact H3].
Defined.

End MergeFacts.

(** ** The characters of to_json_str *)

Module TextFacts.
Import Json IndexedOrderedDict ParamDict JsonFacts.

#[local] Arguments join : simpl never.

(** The printable ASCII characters, from the space to the tilde. *)
Definition is_printable (c : ascii) : bool :=
  ((32 <=? N_of_ascii c) && (N_of_ascii c <=? 126))%N.

Definition printable (t : text) : Prop := Forall (fun c => is_printable c = true) t.

(** Printable, or the line break of an indenting encoder. *)
Definition allowed (e : encoder) (c : ascii) : Prop :=
  is_printable c = true \/ (indent e <> None /\ c = newline).

Lemma escape_printable c : printable (escape c).
Proof. destruct c as [[] [] [] [] [] [] [] []]; repeat constructor. Qed.

Lemma encode_string_printable s : printable (encode_string s).
Proof.
  unfold encode_string, printable. constructor; [done|]. apply Forall_app. split.
  - induction (list_ascii_of_string s) as [|c l IH]; [constructor|].
    simpl. apply Forall_app. split; [apply escape_printable|done].
  - by constructor.
Qed.

Lemma int_char_printable c : is_int_char c = true -> is_printable c = true.
Proof. destruct c as [[] [] [] [] [] [] [] []]; intros H; try discriminate H; done. Qed.

Lemma encode_atom_printable a : printable (encode_atom a).
Proof.
  destruct a as [|z|s]; simpl.
  - repeat constructor.
  - eapply Forall_impl; [apply encode_int_chars|]. apply int_char_printable.
  - apply encode_string_printable.
Qed.

Lemma encode_key_printable k : printable (encode_key k).
Proof.
  destruct k as [|z|s]; simpl; try apply encode_string_printable.
  - repeat constructor.
  - constructor; [done|]. apply Forall_app. split; [|by constructor].
    apply (encode_atom_printable (AInt z)).
Qed.

Lemma printable_allowed e t : printable t -> Forall (allowed e) t.
Proof. intros H. eapply Forall_impl; [exact H|]. intros c Hc. by left. Qed.

Lemma newline_indent_allowed e level : Forall (allowed e) (newline_indent e level).
Proof.
  unfold newline_indent, allowed. destruct (indent e) as [n|] eqn:E; [|constructor].
  constructor; [by right|]. apply Forall_forall. intros c Hc.
  apply list_elem_of_In, repeat_spec in Hc as ->. by left.
Qed.

Lemma join_allowed e sep chunks :
  Forall (allowed e) sep -> Forall (Forall (allowed e)) chunks ->
  Forall (allowed e) (join sep chunks).
Proof.
  intros Hs Hc. unfold join. destruct Hc as [|x chunks Hx Hc]; [constructor|].
  apply Forall_app. split; [done|].
  induction Hc as [|y chunks Hy _ IH]; [constructor|].
  simpl. rewrite !Forall_app. done.
Qed.

Lemma encode_value_allowed e level v :
  printable (item_separator e) -> Forall (allowed e) (encode_value e level v).
Proof.
  intros Hsep. destruct v as [a|items]; simpl.
  - apply printable_allowed, encode_atom_printable.
  - unfold encode_list. destruct items as [|a items].
    + apply printable_allowed. repeat constructor.
    + constructor; [by left|]. rewrite !Forall_app. split_and!.
      * apply newline_indent_allowed.
      * apply join_allowed.
        -- apply Forall_app. split; [by apply printable_allowed|apply newline_indent_allowed].
        -- apply Forall_fmap, Forall_forall. intros x _.
           apply printable_allowed, encode_atom_printable.
      * apply newline_indent_allowed.
      * constructor; [by left|constructor].
Qed.

Lemma encode_dict_allowed e members :
  printable (item_separator e) -> printable (key_separator e) ->
  Forall (allowed e) (encode_dict e 0 members).
Proof.
  intros Hsep Hkey. unfold encode_dict. destruct members as [|m members].
  - apply printable_allowed. repeat constructor.
  - constructor; [by left|]. rewrite !Forall_app. split_and!.
    + apply newline_indent_allowed.
    + apply join_allowed.
      * apply Forall_app. split; [by apply printable_allowed|apply newline_indent_allowed].
      * apply Forall_fmap, Forall_forall. intros [k v] _. simpl. rewrite !Forall_app.
        split_and!.
        -- apply printable_allowed, encode_key_printable.
        -- by apply printable_allowed.
        -- by apply encode_value_allowed.
    + apply newline_indent_allowed.
    + constructor; [by left|constructor].
Qed.

(** X23: the text of [to_json_str] is ASCII: in the compact form every
    character is printable, from the space to the tilde; in the indented form
    the only other character is the line break.  This holds for every
    dictionary. *)
Theorem to_json_str_is_ascii (s : state) (indent : bool) :
  Forall (fun c => is_printable c = true \/ (indent = true /\ c = newline))
         (list_ascii_of_string (to_json_str indent s)).
Proof.
  unfold to_json_str, dumps. destruct indent; simpl negb; cbv iota;
    rewrite list_ascii_of_string_of_list_ascii.
  - eapply Forall_impl; [apply (encode_dict_allowed indent_encoder)|].
    + repeat constructor.
    + repeat constructor.
    + intros c [Hc|[_ Hc]]; [by left|by right].
  - eapply Forall_impl; [apply (encode_dict_allowed compact_encoder)|].
    + repeat constructor.
    + repeat constructor.
    + intros c [Hc|[Hn _]]; [by left|done].
Qed.

End TextFacts.
